(** * Timeline & trim controller of the video previewer: model and proofs

    The development embeds the pointer-driven timeline component
    (components/Timeline.tsx), the owning session's position
    reconciliation (App.tsx), the frame sampler's timestamp schedule
    (services/frameExtractService.ts, services/ffmpegService.ts) and the
    transcode-backend singleton (services/ffmpegService.ts).

    JavaScript numbers are modelled as exact rationals extended with the
    two infinities and NaN.  Rounding, overflow and the sign of zero are
    abstracted away; division by zero, NaN propagation and the NaN rules
    of comparisons, [Math.min] and [Math.max] are kept.  Arithmetic is
    therefore exact where the program rounds to binary64: a sum, a
    difference, a product or a quotient of the model can differ from the
    program's by the rounding, while comparisons, [Math.min] and
    [Math.max] add no error of their own. *)

From Stdlib Require Import QArith Qminmax Qabs Qround Lqa Lia ZArith Bool List String Sorted.
Import ListNotations.

Local Open Scope Q_scope.

(** ** JavaScript numbers *)

Module JsNum.

Inductive num : Type :=
| Fin (q : Q)
| PInf
| NInf
| NaN.

Definition isFinite (a : num) : bool :=
  match a with Fin _ => true | _ => false end.

Definition isNaN (a : num) : bool :=
  match a with NaN => true | _ => false end.

(** Sign of a rational: -1, 0 or 1. *)
Definition Qsgn (q : Q) : Z := Z.sgn (Qnum q).

Definition add (a b : num) : num :=
  match a, b with
  | NaN, _ | _, NaN => NaN
  | Fin x, Fin y => Fin (x + y)
  | PInf, NInf | NInf, PInf => NaN
  | PInf, _ | _, PInf => PInf
  | NInf, _ | _, NInf => NInf
  end.

Definition sub (a b : num) : num :=
  match a, b with
  | NaN, _ | _, NaN => NaN
  | Fin x, Fin y => Fin (x - y)
  | PInf, PInf | NInf, NInf => NaN
  | PInf, _ | _, NInf => PInf
  | NInf, _ | _, PInf => NInf
  end.

(** The infinity of the given sign; sign 0 stands for the invalid
    product 0 * Infinity. *)
Definition inf_of_sign (s : Z) : num :=
  match s with
  | Z0 => NaN
  | Zpos _ => PInf
  | Zneg _ => NInf
  end.

Definition sign (a : num) : Z :=
  match a with
  | Fin q => Qsgn q
  | PInf => 1%Z
  | NInf => (-1)%Z
  | NaN => 0%Z
  end.

Definition mul (a b : num) : num :=
  match a, b with
  | NaN, _ | _, NaN => NaN
  | Fin x, Fin y => Fin (x * y)
  | _, _ => inf_of_sign (sign a * sign b)
  end.

(** Division: a finite non-zero number over zero is an infinity of the
    sign of the numerator, 0/0 and Infinity/Infinity are NaN. *)
Definition div (a b : num) : num :=
  match a, b with
  | NaN, _ | _, NaN => NaN
  | Fin x, Fin y =>
      if Qeq_bool y 0 then inf_of_sign (Qsgn x) else Fin (x / y)
  | Fin _, _ => Fin 0
  | _, Fin y => if Qeq_bool y 0 then a else inf_of_sign (sign a * Qsgn y)
  | _, _ => NaN
  end.

(** [a < b]; false as soon as one side is NaN. *)
Definition lt (a b : num) : bool :=
  match a, b with
  | NaN, _ | _, NaN => false
  | Fin x, Fin y => negb (Qle_bool y x)
  | NInf, NInf | PInf, _ => false
  | NInf, _ => true
  | Fin _, PInf => true
  | Fin _, NInf => false
  end.

(** [a <= b]; false as soon as one side is NaN. *)
Definition le (a b : num) : bool :=
  match a, b with
  | NaN, _ | _, NaN => false
  | Fin x, Fin y => Qle_bool x y
  | NInf, _ => true
  | _, PInf => true
  | PInf, _ => false
  | Fin _, NInf => false
  end.

(** [a === b] on numbers. *)
Definition eq (a b : num) : bool :=
  match a, b with
  | Fin x, Fin y => Qeq_bool x y
  | PInf, PInf | NInf, NInf => true
  | _, _ => false
  end.

(** [a !== b]. *)
Definition neq (a b : num) : bool := negb (eq a b).

(** [a > b] and [a >= b]. *)
Definition gt (a b : num) : bool := lt b a.
Definition ge (a b : num) : bool := le b a.

(** [Math.max(a, b)]: NaN if an argument is NaN, else the larger one. *)
Definition max (a b : num) : num :=
  match a, b with
  | NaN, _ | _, NaN => NaN
  | _, _ => if le a b then b else a
  end.

(** [Math.min(a, b)]: NaN if an argument is NaN, else the smaller one. *)
Definition min (a b : num) : num :=
  match a, b with
  | NaN, _ | _, NaN => NaN
  | _, _ => if le a b then a else b
  end.

(** [Math.abs]. *)
Definition abs (a : num) : num :=
  match a with
  | Fin q => Fin (Qabs q)
  | PInf | NInf => PInf
  | NaN => NaN
  end.

(** [Math.floor]. *)
Definition floor (a : num) : num :=
  match a with
  | Fin q => Fin (inject_Z (Qfloor q))
  | _ => a
  end.

(** Truthiness of a number: 0 and NaN are falsy. *)
Definition truthy (a : num) : bool :=
  match a with
  | Fin q => negb (Qeq_bool q 0)
  | NaN => false
  | _ => true
  end.

(** Mathematical equality of numbers: equal rationals, or the same
    special value. *)
Definition equiv (a b : num) : Prop :=
  match a, b with
  | Fin x, Fin y => x == y
  | PInf, PInf | NInf, NInf | NaN, NaN => True
  | _, _ => False
  end.

End JsNum.

Import JsNum.

Declare Scope num_scope.
Delimit Scope num_scope with num.
Bind Scope num_scope with num.
Notation "a + b" := (add a b) : num_scope.
Notation "a - b" := (sub a b) : num_scope.
Notation "a * b" := (mul a b) : num_scope.
Notation "a / b" := (div a b) : num_scope.
Notation "a <? b" := (lt a b) (at level 70) : num_scope.
Notation "a <=? b" := (le a b) (at level 70) : num_scope.
Notation "a =? b" := (eq a b) (at level 70) : num_scope.

(** ** Shared types (types.ts) *)

Record FrameThumbnail : Type := {
  timestamp : num;
  url : string
}.

Record TimeRange : Type := mkRange {
  start : num;
  end_ : num
}.

(** ** The timeline component (components/Timeline.tsx) *)

Module Timeline.

Local Open Scope string_scope.
Local Open Scope num_scope.

Record TimelineProps : Type := {
  duration : num;
  currentTime : num;
  frames : list FrameThumbnail;
  trimRange : option TimeRange
}.

Inductive TrimDragMode : Type := move | adjust_start | adjust_end.

Record TrimDrag : Type := {
  mode : TrimDragMode;
  startX : num;
  startRange : TimeRange
}.

Record HoverInfo : Type := {
  hover_x : num;
  hover_time : num;
  hover_url : option string
}.

(** The part of [getBoundingClientRect()] the component reads. *)
Record DOMRect : Type := {
  left : num;
  width : num
}.

(** The axis element behind [containerRef]: its geometry and the
    pointers it has captured. *)
Record Container : Type := {
  rect : DOMRect;
  captured : list nat
}.

Inductive PointerType : Type := mouse | touch | pen.

Record PointerEvent : Type := {
  clientX : num;
  pointerId : nat;
  pointerType : PointerType;
  role : option string          (* e.target.dataset.role *)
}.

(** Calls made on the owning session. *)
Inductive Callback : Type :=
| onSeek (time : num)
| onTrimRangeChange (range : TimeRange).

(** Component state ([useState] cells), the referenced element and the
    callbacks issued so far, oldest first. *)
Record World : Type := {
  hoverInfo : option HoverInfo;
  isScrubbing : bool;
  trimDrag : option TrimDrag;
  containerRef : option Container;
  calls : list Callback
}.

Definition setHoverInfo (h : option HoverInfo) (w : World) : World :=
  {| hoverInfo := h; isScrubbing := isScrubbing w; trimDrag := trimDrag w;
     containerRef := containerRef w; calls := calls w |}.

Definition setIsScrubbing (b : bool) (w : World) : World :=
  {| hoverInfo := hoverInfo w; isScrubbing := b; trimDrag := trimDrag w;
     containerRef := containerRef w; calls := calls w |}.

Definition setTrimDrag (d : option TrimDrag) (w : World) : World :=
  {| hoverInfo := hoverInfo w; isScrubbing := isScrubbing w; trimDrag := d;
     containerRef := containerRef w; calls := calls w |}.

Definition call (c : Callback) (w : World) : World :=
  {| hoverInfo := hoverInfo w; isScrubbing := isScrubbing w;
     trimDrag := trimDrag w; containerRef := containerRef w;
     calls := calls w ++ [c] |}.

Definition hasPointerCapture (c : Container) (id : nat) : bool :=
  existsb (Nat.eqb id) (captured c).

Definition withCaptured (f : list nat -> list nat) (w : World) : World :=
  {| hoverInfo := hoverInfo w; isScrubbing := isScrubbing w;
     trimDrag := trimDrag w;
     containerRef :=
       match containerRef w with
       | Some c => Some {| rect := rect c; captured := f (captured c) |}
       | None => None
       end;
     calls := calls w |}.

Definition setPointerCapture (id : nat) : World -> World :=
  withCaptured (fun l => id :: l).

Definition releasePointerCapture (id : nat) : World -> World :=
  withCaptured (filter (fun j => negb (Nat.eqb id j))).

(** [frames.reduce(...)] without an initial value: the first frame is
    the initial accumulator, the callback keeps [prev] unless [curr] is
    strictly nearer. *)
Definition nearer (time : num) (prev curr : FrameThumbnail) : FrameThumbnail :=
  if abs (timestamp curr - time) <? abs (timestamp prev - time)
  then curr else prev.

Definition findFrame (frames : list FrameThumbnail) (time : num)
  : option FrameThumbnail :=
  match frames with
  | [] => None
  | f :: rest => Some (fold_left (nearer time) rest f)
  end.

Definition clamp (value min max : num) : num :=
  JsNum.min (JsNum.max value min) max.

Record Position : Type := {
  pos_x : num;
  pos_time : num
}.

Definition getPosition (p : TimelineProps) (w : World) (clientX : num)
  : option Position :=
  match containerRef w with
  | None => None
  | Some c =>
      if duration p =? Fin 0 then None
      else
        let x := clientX - left (rect c) in
        let pos := JsNum.max (Fin 0) (JsNum.min (Fin 1) (x / width (rect c))) in
        Some {| pos_x := x; pos_time := pos * duration p |}
  end.

Definition updateHover (p : TimelineProps) (clientX : num) (w : World) : World :=
  match getPosition p w clientX with
  | None => w
  | Some pos =>
      let frame := findFrame (frames p) (pos_time pos) in
      setHoverInfo
        (Some {| hover_x := pos_x pos; hover_time := pos_time pos;
                 hover_url := option_map url frame |}) w
  end.

Definition scrubTo (p : TimelineProps) (clientX : num) (w : World) : World :=
  match getPosition p w clientX with
  | None => w
  | Some pos => call (onSeek (pos_time pos)) w
  end.

Definition isTrimRole (r : option string) : bool :=
  match r with
  | Some s =>
      String.eqb s "trim-range" || String.eqb s "trim-handle-start"
      || String.eqb s "trim-handle-end"
  | None => false
  end.

Definition modeOfRole (r : option string) : TrimDragMode :=
  match r with
  | Some s =>
      if String.eqb s "trim-range" then move
      else if String.eqb s "trim-handle-start" then adjust_start
      else adjust_end
  | None => adjust_end
  end.

Definition handlePointerDown (p : TimelineProps) (e : PointerEvent) (w : World)
  : World :=
  match containerRef w with
  | None => w
  | Some _ =>
      if duration p =? Fin 0 then w
      else
        (* trimRange && (role === 'trim-range' || ...) *)
        let target :=
          match trimRange p with
          | Some range => if isTrimRole (role e) then Some range else None
          | None => None
          end in
        match target with
        | Some range =>
            let w := setPointerCapture (pointerId e) w in
            setTrimDrag
              (Some {| mode := modeOfRole (role e); startX := clientX e;
                       startRange := range |}) w
        | None =>
            let w := setPointerCapture (pointerId e) w in
            let w := setIsScrubbing true w in
            let w := scrubTo p (clientX e) w in
            match pointerType e with
            | mouse => updateHover p (clientX e) w
            | _ => w
            end
        end
  end.

(** The trim branch of [handlePointerMove]: the range proposed for the
    drag session [d], or nothing when [getPosition] yields nothing. *)
Definition dragRange (p : TimelineProps) (w : World) (c : Container)
    (d : TrimDrag) (e : PointerEvent) : option TimeRange :=
  let minDuration := JsNum.min (Fin 0.5) (duration p) in
  let rangeDuration := end_ (startRange d) - start (startRange d) in
  let deltaTime := ((clientX e - startX d) / width (rect c)) * duration p in
  match mode d with
  | move =>
      let maxStart := JsNum.max (Fin 0) (duration p - rangeDuration) in
      let nextStart := clamp (start (startRange d) + deltaTime) (Fin 0) maxStart in
      let nextEnd := nextStart + rangeDuration in
      Some {| start := nextStart; end_ := nextEnd |}
  | adjust_start =>
      match getPosition p w (clientX e) with
      | None => None
      | Some pos =>
          Some {| start := clamp (pos_time pos) (Fin 0)
                             (end_ (startRange d) - minDuration);
                  end_ := end_ (startRange d) |}
      end
  | adjust_end =>
      match getPosition p w (clientX e) with
      | None => None
      | Some pos =>
          Some {| start := start (startRange d);
                  end_ := clamp (pos_time pos)
                            (start (startRange d) + minDuration) (duration p) |}
      end
  end.

Definition handlePointerMove (p : TimelineProps) (e : PointerEvent) (w : World)
  : World :=
  match containerRef w with
  | None => w
  | Some c =>
      if duration p =? Fin 0 then w
      else
        match trimDrag w with
        | Some d =>
            match dragRange p w c d e with
            | Some r => call (onTrimRangeChange r) w
            | None => w
            end
        | None =>
            let w := match pointerType e with
                     | mouse => updateHover p (clientX e) w
                     | _ => w
                     end in
            if isScrubbing w then scrubTo p (clientX e) w else w
        end
  end.

(** [containerRef.current?.hasPointerCapture(id)] guarding the release. *)
Definition releaseIfCaptured (id : nat) (w : World) : World :=
  match containerRef w with
  | Some c => if hasPointerCapture c id then releasePointerCapture id w else w
  | None => w
  end.

Definition handlePointerUp (e : PointerEvent) (w : World) : World :=
  let w := releaseIfCaptured (pointerId e) w in
  let w := setTrimDrag None w in
  setIsScrubbing false w.

Definition handlePointerCancel (e : PointerEvent) (w : World) : World :=
  let w := releaseIfCaptured (pointerId e) w in
  let w := setIsScrubbing false w in
  let w := setHoverInfo None w in
  setTrimDrag None w.

(** The inline [onPointerLeave] handler. *)
Definition handlePointerLeave (w : World) : World :=
  if isScrubbing w then w else setHoverInfo None w.

(** The controller is idle: no drag session and no scrubbing. *)
Definition idle (w : World) : Prop :=
  trimDrag w = None /\ isScrubbing w = false.

End Timeline.

(** ** The owning session (App.tsx) *)

Module App.

Local Open Scope num_scope.

(** The fields of [VideoState] that the playback logic reads or writes. *)
Record VideoState : Type := {
  duration : num;
  currentTime : num;
  isPlaying : bool
}.

(** The playback surface behind [videoRef]. *)
Record HTMLVideoElement : Type := {
  el_currentTime : num;
  el_paused : bool
}.

Record Session : Type := {
  video : VideoState;
  trimRange : option TimeRange;
  videoRef : option HTMLVideoElement
}.

Definition clampToRange (time : num) (range : option TimeRange) : num :=
  match range with
  | None => time
  | Some r => JsNum.min (JsNum.max time (start r)) (end_ r)
  end.

Definition setTrimRange (r : option TimeRange) (s : Session) : Session :=
  {| video := video s; trimRange := r; videoRef := videoRef s |}.

Definition setVideo (f : VideoState -> VideoState) (s : Session) : Session :=
  {| video := f (video s); trimRange := trimRange s; videoRef := videoRef s |}.

Definition setElement (el : HTMLVideoElement) (s : Session) : Session :=
  {| video := video s; trimRange := trimRange s; videoRef := Some el |}.

Definition withCurrentTime (t : num) (v : VideoState) : VideoState :=
  {| duration := duration v; currentTime := t; isPlaying := isPlaying v |}.

Definition withIsPlaying (b : bool) (v : VideoState) : VideoState :=
  {| duration := duration v; currentTime := currentTime v; isPlaying := b |}.

Definition withDuration (d : num) (v : VideoState) : VideoState :=
  {| duration := d; currentTime := currentTime v; isPlaying := isPlaying v |}.

(** Assignment to [currentTime].  The model stores the number assigned;
    this is what the surface does for a finite number, while the setter
    of a real element raises a TypeError for NaN and the infinities. *)
Definition el_seek (t : num) (el : HTMLVideoElement) : HTMLVideoElement :=
  {| el_currentTime := t; el_paused := el_paused el |}.

Definition el_pause (el : HTMLVideoElement) : HTMLVideoElement :=
  {| el_currentTime := el_currentTime el; el_paused := true |}.

Definition el_play (el : HTMLVideoElement) : HTMLVideoElement :=
  {| el_currentTime := el_currentTime el; el_paused := false |}.

Definition updateTrimRange (range : TimeRange) (s : Session) : Session :=
  let normalized :=
    if start range <=? end_ range then range
    else {| start := end_ range; end_ := start range |} in
  let s := setTrimRange (Some normalized) s in
  match videoRef s with
  | None => s
  | Some el =>
      let clamped := clampToRange (el_currentTime el) (Some normalized) in
      if neq clamped (el_currentTime el) then
        let s := setElement (el_seek clamped el) s in
        setVideo (withCurrentTime clamped) s
      else s
  end.

Definition onLoadedMetadata (duration : num) (s : Session) : Session :=
  let s := setVideo (withDuration duration) s in
  setTrimRange (Some {| start := Fin 0; end_ := duration |}) s.

Definition handlePlayPause (s : Session) : Session :=
  match videoRef s with
  | None => s
  | Some el =>
      if isPlaying (video s) then
        let s := setElement (el_pause el) s in
        setVideo (withIsPlaying false) s
      else
        let rangeStart :=
          match trimRange s with Some r => start r | None => Fin 0 end in
        let rangeEnd :=
          match trimRange s with
          | Some r => end_ r
          | None => duration (video s)
          end in
        let atEnd :=
          isFinite rangeEnd && ge (el_currentTime el) (rangeEnd - Fin 0.02) in
        let nextTime :=
          clampToRange (if atEnd then rangeStart else el_currentTime el)
            (trimRange s) in
        let el :=
          if neq nextTime (el_currentTime el) then el_seek nextTime el else el in
        let s := setElement (el_play el) s in
        setVideo (fun v => withCurrentTime nextTime (withIsPlaying true v)) s
  end.

Definition handleSeek (time : num) (s : Session) : Session :=
  match videoRef s with
  | None => s
  | Some el =>
      let clamped := clampToRange time (trimRange s) in
      let s := setElement (el_seek clamped el) s in
      setVideo (withCurrentTime clamped) s
  end.

Definition handleTimeUpdate (s : Session) : Session :=
  match videoRef s with
  | None => s
  | Some el =>
      let current := el_currentTime el in
      let plain := setVideo (withCurrentTime current) s in
      match trimRange s with
      | Some r =>
          if current <? start r then
            let s := setElement (el_seek (start r) el) s in
            setVideo (withCurrentTime (start r)) s
          else if gt current (end_ r) then
            let s := setElement (el_seek (end_ r) (el_pause el)) s in
            setVideo
              (fun v => withIsPlaying false (withCurrentTime (end_ r) v)) s
          else plain
      | None => plain
      end
  end.

(** The session's wiring of the timeline's props:
    [onSeek={handleSeek}], [onTrimRangeChange={updateTrimRange}]. *)
Definition deliver (c : Timeline.Callback) (s : Session) : Session :=
  match c with
  | Timeline.onSeek t => handleSeek t s
  | Timeline.onTrimRangeChange r => updateTrimRange r s
  end.


End App.

(** ** Results of fallible (throwing) code *)

Inductive result (A : Type) : Type :=
| Ok (a : A)
| Throw (err : string).

Arguments Ok {A} a.
Arguments Throw {A} err.

Definition bind {A B : Type} (r : result A) (k : A -> result B) : result B :=
  match r with
  | Ok a => k a
  | Throw err => Throw err
  end.

Notation "x <- r ;; k" := (bind r (fun x => k))
  (at level 61, r at next level, right associativity).

(** ** The transcode-backend singleton (services/ffmpegService.ts) *)

Module FFmpegService.

(** Module-level state: the memo [ffmpeg] (a reference to an instance,
    or null), the number of [new FFmpeg()] instances constructed so far
    (instances are identified by their construction index), and the
    instances whose [load] has completed. *)
Record ModuleState : Type := {
  ffmpeg : option nat;
  constructed : nat;
  loaded : list nat
}.

Definition initial : ModuleState :=
  {| ffmpeg := None; constructed := 0; loaded := [] |}.

(** Up to the first [await]: return the memo if set, else construct an
    instance and store it in the memo.  [inl h] is an immediate return,
    [inr h] an initialisation of [h] in flight. *)
Definition loadFFmpeg_begin (m : ModuleState) : ModuleState * (nat + nat) :=
  match ffmpeg m with
  | Some h => (m, inl h)
  | None =>
      let h := constructed m in
      ({| ffmpeg := Some h; constructed := S h; loaded := loaded m |}, inr h)
  end.

(** After the awaits of the [try] block: [outcome] is the error thrown
    by the asset fetch or by [ffmpeg.load], if any.  On failure the memo
    is reset and the error rethrown; on success the memo is returned. *)
Definition loadFFmpeg_settle (h : nat) (outcome : option string)
    (m : ModuleState) : ModuleState * result (option nat) :=
  match outcome with
  | Some error =>
      ({| ffmpeg := None; constructed := constructed m; loaded := loaded m |},
       Throw error)
  | None =>
      let m := {| ffmpeg := ffmpeg m; constructed := constructed m;
                  loaded := h :: loaded m |} in
      (m, Ok (ffmpeg m))
  end.

(** A call that runs to completion without another call interleaved. *)
Definition loadFFmpeg (outcome : option string) (m : ModuleState)
  : ModuleState * result (option nat) :=
  match loadFFmpeg_begin m with
  | (m, inl h) => (m, Ok (Some h))
  | (m, inr h) => loadFFmpeg_settle h outcome m
  end.

(** A sequence of calls, one load outcome per call; the results in call
    order. *)
Fixpoint loadFFmpeg_many (outcomes : list (option string)) (m : ModuleState)
  : ModuleState * list (result (option nat)) :=
  match outcomes with
  | [] => (m, [])
  | o :: rest =>
      let (m1, r) := loadFFmpeg o m in
      let (m2, rs) := loadFFmpeg_many rest m1 in
      (m2, r :: rs)
  end.

End FFmpegService.

(** ** The frame sampler (services/frameExtractService.ts and
       [extractFrames] of services/ffmpegService.ts) *)

Module FrameExtract.

Local Open Scope num_scope.

(** [Number.isFinite(duration) && duration > 0 ? duration : 0] *)
Definition safeDurationOf (duration : num) : num :=
  if isFinite duration && gt duration (Fin 0) then duration else Fin 0.

Definition totalFramesOf (safeDuration : num) : num :=
  JsNum.min (Fin 30) (JsNum.max (Fin 10) (floor (safeDuration * Fin 1.5))).

(** Number of passes of [for (let i = 0; i < n; i++)]: the naturals
    below [n].  [n] is [totalFrames], at most 30, so the unbounded case
    does not arise. *)
Definition passes (n : num) : nat :=
  match n with
  | Fin q => Z.to_nat (Qceiling q)
  | _ => 0
  end.

Definition ofNat (i : nat) : num := Fin (inject_Z (Z.of_nat i)).

(** The timestamp computed in pass [i] of the loop. *)
Definition timestampAt (safeDuration : num) (i : nat) : num :=
  let totalFrames := totalFramesOf safeDuration in
  let timeStep := safeDuration / totalFrames in
  let maxTimestamp := JsNum.max (Fin 0) (safeDuration - Fin 0.01) in
  JsNum.min maxTimestamp (ofNat i * timeStep).

Section Extractors.

(** Producing the image of pass [i] at a timestamp: seek, draw and
    encode in the video path, [exec] and [readFile] in the FFmpeg path.
    Either yields an object URL or throws.  A failure of the set-up
    before the loop (canvas context, input file written to the virtual
    file system) counts as a failure of pass 0, which always runs. *)
Variable grabVideo : nat -> num -> result string.
Variable grabFFmpeg : nat -> num -> result string.

(** The loop body run for the passes [i, i+1, ...] in [todo], pushing
    onto [frames]. *)
Fixpoint sampleLoop (grab : nat -> num -> result string) (safeDuration : num)
    (todo : list nat) (frames : list FrameThumbnail)
  : result (list FrameThumbnail) :=
  match todo with
  | [] => Ok frames
  | i :: rest =>
      let timestamp := timestampAt safeDuration i in
      u <- grab i timestamp ;;
      sampleLoop grab safeDuration rest
        (frames ++ [{| timestamp := timestamp; url := u |}])
  end.

Definition extractFramesWithVideo (duration : num)
  : result (list FrameThumbnail) :=
  let safeDuration := safeDurationOf duration in
  if negb (truthy safeDuration) then Ok []
  else
    sampleLoop grabVideo safeDuration
      (seq 0 (passes (totalFramesOf safeDuration))) [].

(** [extractFrames] of ffmpegService.ts: the singleton is acquired
    first ([loadError] is the error of that acquisition, if any). *)
Definition extractFramesWithFFmpeg (loadError : option string) (duration : num)
  : result (list FrameThumbnail) :=
  match loadError with
  | Some err => Throw err
  | None =>
      let safeDuration := safeDurationOf duration in
      if negb (truthy safeDuration) then Ok []
      else
        sampleLoop grabFFmpeg safeDuration
          (seq 0 (passes (totalFramesOf safeDuration))) []
  end.

Definition extractTimelineFrames (loadError : option string) (duration : num)
  : result (list FrameThumbnail) :=
  match extractFramesWithVideo duration with
  | Ok frames => Ok frames
  | Throw _ => extractFramesWithFFmpeg loadError duration
  end.

End Extractors.

End FrameExtract.

(** ** Properties the specification names *)

Module Spec.

Local Open Scope num_scope.

(** [minSpan = min(0.5, duration)]. *)
Definition minSpan (duration : num) : num := JsNum.min (Fin 0.5) duration.

(** The TimeRange invariant: [0 <= start <= end <= duration] and
    [end - start >= minSpan]. *)
Definition TimeRange_inv (duration : num) (r : TimeRange) : bool :=
  (Fin 0 <=? start r) && (start r <=? end_ r) && (end_ r <=? duration)
  && ge (end_ r - start r) (minSpan duration).

(** [t] lies in the closed interval of the range. *)
Definition inRange (t : num) (r : TimeRange) : bool :=
  (start r <=? t) && (t <=? end_ r).

(** [clamp(v, lo, hi)]: [v] brought into the interval from [lo] to
    [hi], on rationals and with the minimum and maximum of the standard
    library. *)
Definition clamp (v lo hi : Q) : Q := Qmin (Qmax v lo) hi.

(** Coordinate mapping as the specification words it, for the pixel
    offset [x] within an axis of width [W]:
    [time = clamp(x, 0, W) / W * duration]. *)
Definition mappedTime (x W duration : Q) : Q :=
  (clamp x 0 W / W * duration)%Q.

(** The pointer displacement of a drag in seconds:
    [(clientX - pointerOriginX) / axisWidth * duration]. *)
Definition deltaTime (clientX pointerOriginX axisWidth duration : Q) : Q :=
  ((clientX - pointerOriginX) / axisWidth * duration)%Q.




(** Distance of a thumbnail from the query time. *)
Definition distance (time : num) (f : FrameThumbnail) : num :=
  abs (timestamp f - time).

(** [res] is the nearest thumbnail of [frames] to [time], the first one
    in sequence order among the equidistant ones; nothing for the empty
    sequence. *)
Definition nearestFirst (frames : list FrameThumbnail) (time : num)
    (res : option FrameThumbnail) : Prop :=
  match res with
  | None => frames = []
  | Some f =>
      exists i,
        nth_error frames i = Some f
        /\ (forall j g, nth_error frames j = Some g ->
                         (distance time f <=? distance time g) = true)
        /\ (forall j g, nth_error frames j = Some g -> (j < i)%nat ->
                         (distance time f <? distance time g) = true)
  end.

(** A thumbnail whose timestamp is a finite number. *)
Definition finiteStamp (f : FrameThumbnail) : Prop :=
  isFinite (timestamp f) = true.

(** The rational distance from [t] of a thumbnail with a finite
    timestamp. *)
Definition qdist (t : Q) (f : FrameThumbnail) : Q :=
  match timestamp f with
  | Fin ts => Qabs (ts - t)
  | _ => 0
  end.

(** [f] sits at index [i] of [l], is nearest to [t] among [l], and
    strictly nearer than everything before it. *)
Definition firstNearestAt (t : Q) (l : list FrameThumbnail) (i : nat)
    (f : FrameThumbnail) : Prop :=
  nth_error l i = Some f
  /\ (forall j g, nth_error l j = Some g -> (qdist t f <= qdist t g)%Q)
  /\ (forall j g, nth_error l j = Some g -> (j < i)%nat ->
                   (qdist t f < qdist t g)%Q).

(** The rational value of the timestamp of pass [i], for the cap [mt]
    and the step [step]. *)
Definition qstamp (mt step : Q) (i : nat) : Q :=
  let xi := (inject_Z (Z.of_nat i) * step)%Q in
  if Qle_bool mt xi then mt else xi.

(** Timestamps in ascending order. *)
Definition ascending (l : list num) : Prop :=
  StronglySorted (fun a b => (a <=? b) = true) l.

(** The properties of a sampled sequence for the given duration. *)
Definition sampled (duration : num) (frames : list FrameThumbnail) : Prop :=
  ascending (map timestamp frames)
  /\ (10 <= List.length frames <= 30)%nat
  /\ Forall (fun f => (Fin 0 <=? timestamp f) = true
                      /\ (timestamp f <? duration) = true) frames.

(** Whether the element of the world has captured the pointer. *)
Definition capturedBy (w : Timeline.World) (id : nat) : bool :=
  match Timeline.containerRef w with
  | Some c => Timeline.hasPointerCapture c id
  | None => false
  end.

End Spec.

(** ** Sample inputs *)

Module Samples.

Import Timeline.

(** An axis element at the given geometry, holding no pointer. *)
Definition axis (left width : num) : Container :=
  {| rect := {| left := left; width := width |}; captured := [] |}.

(** An axis 100 px wide at the left edge of the viewport. *)
Definition axis100 : Container := axis (Fin 0) (Fin 100).

(** The range from 2 s to 5 s. *)
Definition r25 : TimeRange := {| start := Fin 2; end_ := Fin 5 |}.

(** The idle controller mounted on [c]. *)
Definition idleWorld (c : Container) : World :=
  {| hoverInfo := None; isScrubbing := false; trimDrag := None;
     containerRef := Some c; calls := [] |}.

(** The controller on [c] in the middle of the drag session [d]. *)
Definition draggingWorld (c : Container) (d : TrimDrag) : World :=
  {| hoverInfo := None; isScrubbing := false; trimDrag := Some d;
     containerRef := Some c; calls := [] |}.

Definition props (duration : num) (range : option TimeRange) : TimelineProps :=
  {| duration := duration; currentTime := Fin 0; frames := [];
     trimRange := range |}.

(** A mouse event of pointer 1 at [x] on the element tagged [role]. *)
Definition mouseAt (x : num) (role : option string) : PointerEvent :=
  {| clientX := x; pointerId := 1; pointerType := mouse; role := role |}.

Definition session (mode : TrimDragMode) (x0 : num) (r : TimeRange) : TrimDrag :=
  {| mode := mode; startX := x0; startRange := r |}.

(** A session playing at [t] under the trim range [r]. *)
Definition playingAt (t : num) (r : option TimeRange) : App.Session :=
  {| App.video :=
       {| App.duration := Fin 10; App.currentTime := t; App.isPlaying := true |};
     App.trimRange := r;
     App.videoRef :=
       Some {| App.el_currentTime := t; App.el_paused := false |} |}.

End Samples.

(** ** Render projection of the timeline (components/Timeline.tsx) *)

Module Render.

Import Timeline.
Local Open Scope num_scope.

Definition playheadPosition (p : TimelineProps) : num :=
  if gt (duration p) (Fin 0) then (currentTime p / duration p) * Fin 100
  else Fin 0.

(** [!!trimRange && duration > 0] *)
Definition showTrim (p : TimelineProps) : bool :=
  match trimRange p with
  | Some _ => gt (duration p) (Fin 0)
  | None => false
  end.

Definition trimStart (p : TimelineProps) : num :=
  if showTrim p then
    match trimRange p with
    | Some r => (start r / duration p) * Fin 100
    | None => Fin 0
    end
  else Fin 0.

Definition trimEnd (p : TimelineProps) : num :=
  if showTrim p then
    match trimRange p with
    | Some r => (end_ r / duration p) * Fin 100
    | None => Fin 0
    end
  else Fin 0.

Definition trimWidth (p : TimelineProps) : num :=
  JsNum.max (Fin 0) (trimEnd p - trimStart p).

(** The condition under which the trim overlay, and with it the three
    trim hit targets, is part of the rendered tree. *)
Definition trimOverlayRendered (p : TimelineProps) : bool :=
  showTrim p && gt (trimWidth p) (Fin 0).

End Render.

(** ** Export (handleExport of App.tsx, trimVideo of the FFmpeg service) *)

Module Exporter.

Local Open Scope string_scope.
Local Open Scope num_scope.

Inductive Outcome : Type :=
| NotStarted
| Downloaded (blob : string)
| Alerted (message : string).

Section Encoder.

(** The encoder run of [trimVideo]: [exec] with [-ss start -t duration]
    on the input, then [readFile] of the output.  Yields the encoded
    blob or throws; a failure to stage the input counts as a failure of
    the run. *)
Variable encode : num -> num -> result string.

Definition trimVideo (loadError : option string) (start end_ : num)
  : result (option string) :=
  match loadError with
  | Some err => Throw err
  | None =>
      let safeStart := JsNum.max (Fin 0) (JsNum.min start end_) in
      let safeEnd := JsNum.max start end_ in
      let duration := JsNum.max (Fin 0) (safeEnd - safeStart) in
      if negb (isFinite duration) || (duration <=? Fin 0) then Ok None
      else
        blob <- encode safeStart duration ;;
        Ok (Some blob)
  end.

Definition handleExport (file : option string) (trimRange : option TimeRange)
    (loadError : option string) : Outcome :=
  match file, trimRange with
  | Some _, Some r =>
      let safeStart := JsNum.max (Fin 0) (JsNum.min (start r) (end_ r)) in
      let safeEnd := JsNum.max (start r) (end_ r) in
      if safeEnd <=? safeStart then NotStarted
      else
        match trimVideo loadError safeStart safeEnd with
        | Ok (Some blob) => Downloaded blob
        | Ok None => Alerted "Trim range is empty."
        | Throw _ => Alerted "Export failed. Please try again."
        end
  | _, _ => NotStarted
  end.

End Encoder.

(** [!!video.file && !!trimRange && trimRange.end > trimRange.start
     && !video.isProcessing] *)
Definition canExport (file : option string) (trimRange : option TimeRange)
    (isProcessing : bool) : bool :=
  match file, trimRange with
  | Some _, Some r => gt (end_ r) (start r) && negb isProcessing
  | _, _ => false
  end.

End Exporter.

(** ** Progress reporting of the FFmpeg extraction
       ([reportProgress] and [execProgress] of [extractFrames]) *)

Module Progress.

Local Open Scope num_scope.

(** [lastProgress] and the values handed to [onProgress], oldest
    first.  The caller's [onProgress] is taken to be present. *)
Record Reporter : Type := {
  lastProgress : num;
  reported : list num
}.

Definition fresh : Reporter := {| lastProgress := Fin 0; reported := [] |}.

Definition reportProgress (p : num) (st : Reporter) : Reporter :=
  let clamped := JsNum.min (Fin 1) (JsNum.max (Fin 0) p) in
  if clamped <? lastProgress st then st
  else {| lastProgress := clamped; reported := reported st ++ [clamped] |}.

(** The [ratio] of [execProgress] for one progress event of the
    encoder. *)
Definition execRatio (safeDuration progress time : num) : num :=
  let ratioFromProgress := if isFinite progress then progress else Fin 0 in
  let ratioFromTime :=
    if isFinite time && gt safeDuration (Fin 0)
    then JsNum.min (Fin 1) (time / (safeDuration * Fin 1000000))
    else Fin 0 in
  JsNum.max (Fin 0)
    (JsNum.min (Fin 1) (JsNum.max ratioFromProgress ratioFromTime)).

Definition execProgress (safeDuration totalFrames : num) (i : nat)
    (event : num * num) (st : Reporter) : Reporter :=
  let ratio := execRatio safeDuration (fst event) (snd event) in
  reportProgress ((FrameExtract.ofNat i + ratio) / totalFrames) st.

(** Pass [i] of the loop: the progress events of its [exec], then the
    report of the finished frame. *)
Definition framePass (safeDuration totalFrames : num) (i : nat)
    (events : list (num * num)) (st : Reporter) : Reporter :=
  let st := fold_left (fun st ev => execProgress safeDuration totalFrames i ev st)
              events st in
  reportProgress ((FrameExtract.ofNat i + Fin 1) / totalFrames) st.

(** The passes from [i] on, one list of encoder events per pass. *)
Fixpoint passesFrom (safeDuration totalFrames : num) (i : nat)
    (passes : list (list (num * num))) (st : Reporter) : Reporter :=
  match passes with
  | [] => st
  | events :: rest =>
      passesFrom safeDuration totalFrames (S i) rest
        (framePass safeDuration totalFrames i events st)
  end.

(** The reporter has handed out an ascending sequence of fractions, none
    above [lastProgress]. *)
Definition steady (st : Reporter) : Prop :=
  exists lp : Q,
    lastProgress st = Fin lp /\ (0 <= lp <= 1)%Q
    /\ Forall (fun v => exists q : Q, v = Fin q /\ (0 <= q <= lp)%Q)
         (reported st)
    /\ Spec.ascending (reported st).

(** A whole extraction that grabs every frame: [reportProgress(0)],
    then the passes. *)
Definition extraction (safeDuration : num)
    (passes : list (list (num * num))) : Reporter :=
  passesFrom safeDuration (FrameExtract.totalFramesOf safeDuration) 0 passes
    (reportProgress (Fin 0) fresh).

End Progress.

(** ** Frame selection of the analysis client ([analyzeVideoFrames]) *)

Module Analysis.

Local Open Scope string_scope.

(** [[0, Math.floor(frames.length / 2), frames.length - 1]] *)
Definition sampleIndices (frames : list string) : list Z :=
  let n := Z.of_nat (List.length frames) in
  [0; n / 2; n - 1]%Z.

(** [frames[i]]: undefined outside the array. *)
Definition at_index (frames : list string) (i : Z) : option string :=
  if (i <? 0)%Z then None else nth_error frames (Z.to_nat i).

(** The URLs that are fetched and converted: one per sample index whose
    entry is a non-empty string, in index order. *)
Definition fetchedUrls (frames : list string) : list string :=
  flat_map
    (fun i =>
       match at_index frames i with
       | Some u => if String.eqb u EmptyString then [] else [u]
       | None => []
       end)
    (sampleIndices frames).

End Analysis.

(** ** The timeline mounted in the owning session *)

Module Studio.

Import Timeline.

Record Studio : Type := {
  world : World;
  session : App.Session;
  thumbs : list FrameThumbnail
}.

(** The props the session passes to the timeline when it renders. *)
Definition propsOf (st : Studio) : TimelineProps :=
  {| duration := App.duration (App.video (session st));
     currentTime := App.currentTime (App.video (session st));
     frames := thumbs st;
     trimRange := App.trimRange (session st) |}.

Definition clearCalls (w : World) : World :=
  {| hoverInfo := hoverInfo w; isScrubbing := isScrubbing w;
     trimDrag := trimDrag w; containerRef := containerRef w; calls := [] |}.

(** A pointer handler runs on the props of the last render; the
    callbacks it issues reach the session in order. *)
Definition dispatch (h : TimelineProps -> World -> World) (st : Studio)
  : Studio :=
  let w := h (propsOf st) (clearCalls (world st)) in
  {| world := w;
     session := fold_left (fun s c => App.deliver c s) (calls w) (session st);
     thumbs := thumbs st |}.

Definition onSession (f : App.Session -> App.Session) (st : Studio) : Studio :=
  {| world := world st; session := f (session st); thumbs := thumbs st |}.

(** Playback moves the position of the surface to [t]. *)
Definition played (t : num) (s : App.Session) : App.Session :=
  match App.videoRef s with
  | Some el => App.setElement (App.el_seek t el) s
  | None => s
  end.

(** A new layout gives the axis element another bounding rectangle. *)
Definition laidOut (l W : num) (w : World) : World :=
  {| hoverInfo := hoverInfo w; isScrubbing := isScrubbing w;
     trimDrag := trimDrag w;
     containerRef :=
       match containerRef w with
       | Some c => Some {| rect := {| left := l; width := W |};
                           captured := captured c |}
       | None => None
       end;
     calls := calls w |}.

Inductive Event : Type :=
| pointerdown (e : PointerEvent)
| pointermove (e : PointerEvent)
| pointerup (e : PointerEvent)
| pointercancel (e : PointerEvent)
| pointerleave
| timeupdate (t : num)      (* the surface reports the position [t] *)
| clickPlayPause
| clickSkipBack
| clickSkipForward
| relayout (l W : num).     (* the axis is laid out anew at [l], [W] wide *)

Definition step (ev : Event) (st : Studio) : Studio :=
  match ev with
  | pointerdown e => dispatch (fun p => handlePointerDown p e) st
  | pointermove e => dispatch (fun p => handlePointerMove p e) st
  | pointerup e => dispatch (fun _ => handlePointerUp e) st
  | pointercancel e => dispatch (fun _ => handlePointerCancel e) st
  | pointerleave => dispatch (fun _ => handlePointerLeave) st
  | timeupdate t => onSession (fun s => App.handleTimeUpdate (played t s)) st
  | clickPlayPause => onSession App.handlePlayPause st
  | clickSkipBack =>
      onSession
        (fun s => App.handleSeek
                    (sub (App.currentTime (App.video s)) (Fin 5)) s) st
  | clickSkipForward =>
      onSession
        (fun s => App.handleSeek
                    (add (App.currentTime (App.video s)) (Fin 5)) s) st
  | relayout l W =>
      {| world := laidOut l W (world st); session := session st;
         thumbs := thumbs st |}
  end.

Definition run (events : list Event) (st : Studio) : Studio :=
  fold_left (fun st ev => step ev st) events st.

(** What an event carries is a finite number, and a layout keeps the
    axis at a width other than zero. *)
Definition finiteEvent (ev : Event) : Prop :=
  match ev with
  | pointerdown e | pointermove e | pointerup e | pointercancel e =>
      isFinite (clientX e) = true
  | timeupdate t => isFinite t = true
  | relayout l W =>
      exists ql qW : Q, l = Fin ql /\ W = Fin qW /\ ~ (qW == 0)%Q
  | _ => True
  end.

(** A callback whose arguments are finite numbers. *)
Definition finiteCall (c : Callback) : Prop :=
  match c with
  | onSeek t => isFinite t = true
  | onTrimRangeChange r =>
      isFinite (start r) = true /\ isFinite (end_ r) = true
  end.

(** The session holds a finite trim range whose start does not exceed
    its end, and the playback position is inside that range. *)
Definition sessionSound (D : Q) (s : App.Session) : Prop :=
  App.duration (App.video s) = Fin D
  /\ isFinite (App.currentTime (App.video s)) = true
  /\ exists (a b : Q) (el : App.HTMLVideoElement),
       App.trimRange s = Some {| start := Fin a; end_ := Fin b |}
       /\ (a <= b)%Q
       /\ App.videoRef s = Some el
       /\ Spec.inRange (App.el_currentTime el)
            {| start := Fin a; end_ := Fin b |} = true.

(** The axis is mounted with finite geometry of non-zero width, and the
    origin of a drag session in progress is finite. *)
Definition worldSound (w : World) : Prop :=
  (exists (l W : Q) (cap : list nat),
      containerRef w
      = Some {| rect := {| left := Fin l; width := Fin W |}; captured := cap |}
      /\ ~ (W == 0)%Q)
  /\ (forall d, trimDrag w = Some d ->
        exists (m : TrimDragMode) (x0 a b : Q),
          d = {| mode := m; startX := Fin x0;
                 startRange := {| start := Fin a; end_ := Fin b |} |}).

Definition sound (D : Q) (st : Studio) : Prop :=
  (0 < D)%Q /\ sessionSound D (session st) /\ worldSound (world st).

(** The session holds a finite trim range that satisfies the TimeRange
    invariant for the duration [D], and the playback position is inside
    that range. *)
Definition sessionLoaded (D : Q) (s : App.Session) : Prop :=
  App.duration (App.video s) = Fin D
  /\ isFinite (App.currentTime (App.video s)) = true
  /\ exists (a b : Q) (el : App.HTMLVideoElement),
       App.trimRange s = Some {| start := Fin a; end_ := Fin b |}
       /\ Spec.TimeRange_inv (Fin D) {| start := Fin a; end_ := Fin b |} = true
       /\ App.videoRef s = Some el
       /\ Spec.inRange (App.el_currentTime el)
            {| start := Fin a; end_ := Fin b |} = true.

(** The axis is mounted with finite geometry of non-zero width, and the
    origin of a drag session in progress is finite and satisfies the
    TimeRange invariant. *)
Definition worldLoaded (D : Q) (w : World) : Prop :=
  (exists (l W : Q) (cap : list nat),
      containerRef w
      = Some {| rect := {| left := Fin l; width := Fin W |}; captured := cap |}
      /\ ~ (W == 0)%Q)
  /\ (forall d, trimDrag w = Some d ->
        exists (m : TrimDragMode) (x0 a b : Q),
          d = {| mode := m; startX := Fin x0;
                 startRange := {| start := Fin a; end_ := Fin b |} |}
          /\ Spec.TimeRange_inv (Fin D) {| start := Fin a; end_ := Fin b |}
             = true).

Definition loaded (D : Q) (st : Studio) : Prop :=
  (0 < D)%Q /\ sessionLoaded D (session st) /\ worldLoaded D (world st).

End Studio.

(** * Facts about numbers *)

Section NumFacts.

Lemma Qle_bool_false (a b : Q) : Qle_bool a b = false -> b < a.
Proof.
  intros H. apply Qnot_le_lt. intros Hle.
  apply Qle_bool_iff in Hle. congruence.
Qed.

Lemma Qeq_bool_false (a b : Q) : Qeq_bool a b = false -> ~ a == b.
Proof.
  intros H Heq. apply Qeq_bool_iff in Heq. congruence.
Qed.

Lemma le_Fin (a b : Q) : le (Fin a) (Fin b) = true <-> a <= b.
Proof. simpl. apply Qle_bool_iff. Qed.

Lemma lt_Fin (a b : Q) : lt (Fin a) (Fin b) = true <-> a < b.
Proof.
  simpl. split; intros H.
  - apply Qle_bool_false. now apply negb_true_iff.
  - apply negb_true_iff. destruct (Qle_bool b a) eqn:E; auto.
    apply Qle_bool_iff in E. lra.
Qed.



Lemma equiv_trans (a b c : num) : equiv a b -> equiv b c -> equiv a c.
Proof.
  destruct a, b, c; simpl; auto; try contradiction.
  intros H1 H2. now rewrite H1.
Qed.

End NumFacts.

(** Turns boolean comparisons of rationals in the context into
    propositions for [lra]. *)
Ltac qprop :=
  repeat match goal with
  | H : Qle_bool _ _ = true |- _ => apply Qle_bool_iff in H
  | H : Qle_bool _ _ = false |- _ => apply Qle_bool_false in H
  | H : Qeq_bool _ _ = true |- _ => apply Qeq_bool_iff in H
  | H : Qeq_bool _ _ = false |- _ => apply Qeq_bool_false in H
  | H : negb _ = true |- _ => apply negb_true_iff in H
  | H : negb _ = false |- _ => apply negb_false_iff in H
  | H : (_ && _)%bool = true |- _ => apply andb_prop in H; destruct H
  end.


(** * Nearest-frame lookup *)

Section NearestFrame.

Import Timeline Spec.

Variable t : Q.

Local Abbreviation qdist := (Spec.qdist t).
Local Abbreviation firstNearestAt := (Spec.firstNearestAt t).

Lemma distance_qdist (f : FrameThumbnail) :
  finiteStamp f -> distance (Fin t) f = Fin (qdist f).
Proof.
  unfold finiteStamp, distance, qdist.
  destruct (timestamp f); simpl; intros H; try discriminate; reflexivity.
Qed.

Lemma nearer_cases (prev curr : FrameThumbnail) :
  finiteStamp prev -> finiteStamp curr ->
  (qdist curr < qdist prev /\ nearer (Fin t) prev curr = curr)
  \/ (qdist prev <= qdist curr /\ nearer (Fin t) prev curr = prev).
Proof.
  intros Hp Hc. unfold nearer.
  fold (distance (Fin t) curr). fold (distance (Fin t) prev).
  rewrite (distance_qdist _ Hp), (distance_qdist _ Hc).
  destruct (lt (Fin (qdist curr)) (Fin (qdist prev))) eqn:E.
  - left. split; auto. now apply lt_Fin.
  - right. split; auto.
    destruct (Qlt_le_dec (qdist curr) (qdist prev)) as [Hlt | Hle]; auto.
    apply lt_Fin in Hlt. congruence.
Qed.

Lemma nth_error_snoc (l : list FrameThumbnail) (g h : FrameThumbnail) (j : nat) :
  nth_error (l ++ [g]) j = Some h ->
  ((j < List.length l)%nat /\ nth_error l j = Some h) \/ (j = List.length l /\ h = g).
Proof.
  intros H. destruct (Nat.lt_ge_cases j (List.length l)) as [Hlt | Hge].
  - left. split; auto. now rewrite nth_error_app1 in H.
  - right. rewrite nth_error_app2 in H by assumption.
    destruct (j - List.length l)%nat as [| k] eqn:E; simpl in H.
    + split; [lia | congruence].
    + destruct k; discriminate.
Qed.

Lemma firstNearest_step (pre : list FrameThumbnail) (i : nat)
    (f g : FrameThumbnail) :
  finiteStamp f -> finiteStamp g ->
  firstNearestAt pre i f ->
  exists i', firstNearestAt (pre ++ [g]) i' (nearer (Fin t) f g).
Proof.
  intros Hf Hg (Hnth & Hmin & Hfirst).
  assert (Hi : (i < List.length pre)%nat).
  { apply nth_error_Some. congruence. }
  destruct (nearer_cases f g Hf Hg) as [[Hlt ->] | [Hle ->]].
  - exists (List.length pre). repeat split.
    + rewrite nth_error_app2 by lia. now rewrite Nat.sub_diag.
    + intros j h Hj. apply nth_error_snoc in Hj as [[_ Hj] | [_ ->]].
      * specialize (Hmin _ _ Hj). lra.
      * lra.
    + intros j h Hj Hlt'. apply nth_error_snoc in Hj as [[_ Hj] | [-> _]].
      * specialize (Hmin _ _ Hj). lra.
      * lia.
  - exists i. repeat split.
    + now rewrite nth_error_app1.
    + intros j h Hj. apply nth_error_snoc in Hj as [[_ Hj] | [_ ->]]; eauto.
    + intros j h Hj Hlt'. apply nth_error_snoc in Hj as [[_ Hj] | [-> _]].
      * eauto.
      * lia.
Qed.

Lemma nearer_finite (f g : FrameThumbnail) :
  finiteStamp f -> finiteStamp g -> finiteStamp (nearer (Fin t) f g).
Proof. intros Hf Hg. unfold nearer. now destruct (lt _ _). Qed.

Lemma fold_firstNearest (rest : list FrameThumbnail) :
  forall (pre : list FrameThumbnail) (i : nat) (f : FrameThumbnail),
    finiteStamp f -> Forall finiteStamp rest ->
    firstNearestAt pre i f ->
    exists i', firstNearestAt (pre ++ rest) i' (fold_left (nearer (Fin t)) rest f).
Proof.
  induction rest as [| g rest IH]; intros pre i f Hf Hall Hpre.
  - rewrite app_nil_r. now exists i.
  - inversion Hall as [| ? ? Hg Hrest]; subst. simpl.
    destruct (firstNearest_step pre i f g Hf Hg Hpre) as [i' Hstep].
    destruct (IH (pre ++ [g]) i' _ (nearer_finite f g Hf Hg) Hrest Hstep)
      as [i'' Hfin].
    exists i''. now rewrite <- app_assoc in Hfin.
Qed.

Lemma firstNearest_nearestFirst (l : list FrameThumbnail) (i : nat)
    (f : FrameThumbnail) :
  Forall finiteStamp l -> firstNearestAt l i f ->
  nearestFirst l (Fin t) (Some f).
Proof.
  intros Hall (Hnth & Hmin & Hfirst).
  assert (Hf : finiteStamp f).
  { eapply Forall_forall; [exact Hall |]. eapply nth_error_In; eauto. }
  exists i. repeat split; auto.
  - intros j g Hj.
    assert (Hg : finiteStamp g).
    { eapply Forall_forall; [exact Hall |]. eapply nth_error_In; eauto. }
    rewrite (distance_qdist _ Hf), (distance_qdist _ Hg).
    apply le_Fin. eauto.
  - intros j g Hj Hlt.
    assert (Hg : finiteStamp g).
    { eapply Forall_forall; [exact Hall |]. eapply nth_error_In; eauto. }
    rewrite (distance_qdist _ Hf), (distance_qdist _ Hg).
    apply lt_Fin. eauto.
Qed.

Lemma findFrame_nearestFirst (frames : list FrameThumbnail) :
  Forall finiteStamp frames ->
  nearestFirst frames (Fin t) (findFrame frames (Fin t)).
Proof.
  destruct frames as [| f rest]; intros Hall; simpl; auto.
  inversion Hall as [| ? ? Hf Hrest]; subst.
  assert (H0 : firstNearestAt [f] 0 f).
  { repeat split; auto.
    - intros [| [| j]] g Hj; simpl in Hj; try discriminate.
      injection Hj as <-. lra.
    - intros j g _ Hlt. lia. }
  destruct (fold_firstNearest rest [f] 0%nat f Hf Hrest H0) as [i Hi].
  eapply firstNearest_nearestFirst; eauto.
Qed.

End NearestFrame.

(** C4. Nearest-frame lookup: for a finite query time and thumbnails
    with finite timestamps, [findFrame] returns the thumbnail at minimum
    absolute distance from the query, the first in sequence order among
    equidistant ones; on the timestamps 0, 2, 4, 6 and the query 3 it
    returns the thumbnail at 2; on the empty sequence it returns
    nothing. *)
Theorem findFrame_nearest_first_in_order
    (frames : list FrameThumbnail) (t : Q) :
  Forall Spec.finiteStamp frames ->
  Spec.nearestFirst frames (Fin t) (Timeline.findFrame frames (Fin t))
  /\ (forall u0 u2 u4 u6 : string,
        Timeline.findFrame
          [ {| timestamp := Fin 0; url := u0 |};
            {| timestamp := Fin 2; url := u2 |};
            {| timestamp := Fin 4; url := u4 |};
            {| timestamp := Fin 6; url := u6 |} ] (Fin 3)
        = Some {| timestamp := Fin 2; url := u2 |})
  /\ (forall time : num, Timeline.findFrame [] time = None).
Proof.
  intros Hall. split; [| split].
  - now apply findFrame_nearestFirst.
  - intros. reflexivity.
  - intros. reflexivity.
Qed.

Lemma findFrame_nearest_first_in_order_witness :
  let frames :=
    [ {| timestamp := Fin 0; url := "a" |};
      {| timestamp := Fin 2; url := "b" |};
      {| timestamp := Fin 4; url := "c" |};
      {| timestamp := Fin 6; url := "d" |} ] in
  Forall Spec.finiteStamp frames
  /\ Spec.nearestFirst frames (Fin 3) (Timeline.findFrame frames (Fin 3)).
Proof.
  assert (H : Forall Spec.finiteStamp
                [ {| timestamp := Fin 0; url := "a" |};
                  {| timestamp := Fin 2; url := "b" |};
                  {| timestamp := Fin 4; url := "c" |};
                  {| timestamp := Fin 6; url := "d" |} ]).
  { repeat constructor. }
  split; [exact H |].
  exact (proj1 (findFrame_nearest_first_in_order _ 3 H)).
Defined.

(** * Terminal pointer events *)

(** C7. Pointer-up leaves the controller idle, releases the capture of
    the event's pointer and issues no callback; pointer-cancel does the
    same and clears the hover state. *)
Theorem terminal_events_reset_to_idle
    (e : Timeline.PointerEvent) (w : Timeline.World) :
  let up := Timeline.handlePointerUp e w in
  let cancel := Timeline.handlePointerCancel e w in
  (Timeline.idle up
   /\ Spec.capturedBy up (Timeline.pointerId e) = false
   /\ Timeline.calls up = Timeline.calls w
   /\ Timeline.hoverInfo up = Timeline.hoverInfo w)
  /\ (Timeline.idle cancel
      /\ Spec.capturedBy cancel (Timeline.pointerId e) = false
      /\ Timeline.calls cancel = Timeline.calls w
      /\ Timeline.hoverInfo cancel = None).
Proof.
  assert (Hrel : Spec.capturedBy
                   (Timeline.releaseIfCaptured (Timeline.pointerId e) w)
                   (Timeline.pointerId e) = false).
  { unfold Spec.capturedBy, Timeline.releaseIfCaptured.
    destruct (Timeline.containerRef w) as [c |] eqn:Hc; simpl.
    - destruct (Timeline.hasPointerCapture c (Timeline.pointerId e)) eqn:Hcap.
      + simpl. rewrite Hc. unfold Timeline.hasPointerCapture. simpl.
        apply not_true_is_false. intros Hex.
        apply existsb_exists in Hex as (j & Hin & Hj).
        apply filter_In in Hin as [_ Hneq].
        rewrite Hj in Hneq. discriminate.
      + rewrite Hc. exact Hcap.
    - rewrite Hc. reflexivity. }
  assert (Hcalls : Timeline.calls
                     (Timeline.releaseIfCaptured (Timeline.pointerId e) w)
                   = Timeline.calls w
                   /\ Timeline.hoverInfo
                        (Timeline.releaseIfCaptured (Timeline.pointerId e) w)
                      = Timeline.hoverInfo w).
  { unfold Timeline.releaseIfCaptured.
    destruct (Timeline.containerRef w) as [c |]; auto.
    destruct (Timeline.hasPointerCapture c _); auto. }
  destruct Hcalls as [Hcalls Hhover].
  simpl. unfold Timeline.idle, Timeline.handlePointerUp,
    Timeline.handlePointerCancel. simpl.
  repeat split; auto.
Qed.

(** * The backend singleton *)

Section Singleton.

Import FFmpegService.

Lemma loadFFmpeg_memo_hit (m : ModuleState) (h : nat) (o : option string) :
  ffmpeg m = Some h -> loadFFmpeg o m = (m, Ok (Some h)).
Proof.
  intros Hm. unfold loadFFmpeg, loadFFmpeg_begin. now rewrite Hm.
Qed.

Lemma loadFFmpeg_many_memo_hit (outcomes : list (option string)) :
  forall (m : ModuleState) (h : nat),
    ffmpeg m = Some h ->
    loadFFmpeg_many outcomes m = (m, map (fun _ => Ok (Some h)) outcomes).
Proof.
  induction outcomes as [| o rest IH]; intros m h Hm; simpl.
  - reflexivity.
  - rewrite (loadFFmpeg_memo_hit m h o Hm). now rewrite (IH m h Hm).
Qed.

End Singleton.

(** C9. With an empty memo, a successful [loadFFmpeg] stores the handle
    it returns and every later call returns that same handle without
    touching the state; a failing [loadFFmpeg] rethrows the error and
    leaves the memo empty, so the next call constructs and initialises a
    new instance instead of returning the failed one. *)
Theorem loadFFmpeg_memoizes_and_retries
    (m : FFmpegService.ModuleState) (error : string) :
  FFmpegService.ffmpeg m = None ->
  (let m1 := fst (FFmpegService.loadFFmpeg None m) in
   let h := FFmpegService.constructed m in
   snd (FFmpegService.loadFFmpeg None m) = Ok (Some h)
   /\ FFmpegService.ffmpeg m1 = Some h
   /\ In h (FFmpegService.loaded m1)
   /\ forall outcomes : list (option string),
        FFmpegService.loadFFmpeg_many outcomes m1
        = (m1, map (fun _ => Ok (Some h)) outcomes))
  /\ (let m1 := fst (FFmpegService.loadFFmpeg (Some error) m) in
      let failed := FFmpegService.constructed m in
      snd (FFmpegService.loadFFmpeg (Some error) m) = Throw error
      /\ FFmpegService.ffmpeg m1 = None
      /\ FFmpegService.loaded m1 = FFmpegService.loaded m
      /\ (forall o : option string,
            FFmpegService.constructed (fst (FFmpegService.loadFFmpeg o m1))
            = S (FFmpegService.constructed m1))
      /\ (let m2 := fst (FFmpegService.loadFFmpeg None m1) in
          let h' := FFmpegService.constructed m1 in
          snd (FFmpegService.loadFFmpeg None m1) = Ok (Some h')
          /\ h' <> failed
          /\ FFmpegService.ffmpeg m2 = Some h'
          /\ In h' (FFmpegService.loaded m2))).
Proof.
  intros Hm. unfold FFmpegService.loadFFmpeg, FFmpegService.loadFFmpeg_begin.
  rewrite Hm. simpl. split.
  - repeat split; auto.
    intros outcomes. now apply loadFFmpeg_many_memo_hit.
  - repeat split; auto.
    intros o. destruct o; reflexivity.
Qed.

Lemma loadFFmpeg_memoizes_and_retries_witness :
  FFmpegService.ffmpeg FFmpegService.initial = None
  /\ snd (FFmpegService.loadFFmpeg None FFmpegService.initial) = Ok (Some 0%nat)
  /\ snd (FFmpegService.loadFFmpeg (Some "HTTP 404"%string) FFmpegService.initial)
     = Throw "HTTP 404"%string.
Proof.
  split; [reflexivity |].
  pose proof (loadFFmpeg_memoizes_and_retries FFmpegService.initial
                "HTTP 404"%string eq_refl) as [Hok Hfail].
  split; [exact (proj1 Hok) | exact (proj1 Hfail)].
Defined.

(** * Pointer-down dispatch *)

Section PointerDown.

Import Timeline.

Lemma positive_not_zero (d : num) :
  lt (Fin 0) d = true -> JsNum.eq d (Fin 0) = false.
Proof.
  destruct d as [q | | |]; simpl; intros H; try discriminate; auto.
  qprop. destruct (Qeq_bool q 0) eqn:E; auto. qprop. lra.
Qed.

Lemma getPosition_some (p : TimelineProps) (w : World) (c : Container)
    (x : num) :
  containerRef w = Some c -> JsNum.eq (duration p) (Fin 0) = false ->
  getPosition p w x
  = Some {| pos_x := sub x (left (rect c));
            pos_time :=
              mul (JsNum.max (Fin 0)
                     (JsNum.min (Fin 1)
                        (div (sub x (left (rect c))) (width (rect c)))))
                  (duration p) |}.
Proof.
  intros Hc Hd. unfold getPosition. now rewrite Hc, Hd.
Qed.

Lemma calls_updateHover (p : TimelineProps) (x : num) (w : World) :
  calls (updateHover p x w) = calls w
  /\ trimDrag (updateHover p x w) = trimDrag w
  /\ isScrubbing (updateHover p x w) = isScrubbing w
  /\ containerRef (updateHover p x w) = containerRef w.
Proof.
  unfold updateHover. destruct (getPosition p w x); simpl; auto.
Qed.

End PointerDown.

(** * Clamps and the coordinate mapping *)

(** Names every minimum and maximum of rationals in the goal and keeps
    its defining property, for [lra]. *)
Ltac qminmax :=
  repeat match goal with
  | |- context [Qmax ?a ?b] =>
      let H := fresh "Hmax" in
      let m := fresh "mx" in
      pose proof (Q.max_spec a b) as H; set (m := Qmax a b) in *; clearbody m
  | |- context [Qmin ?a ?b] =>
      let H := fresh "Hmin" in
      let m := fresh "mn" in
      pose proof (Q.min_spec a b) as H; set (m := Qmin a b) in *; clearbody m
  end.

Section Mapping.

Import Timeline.

Lemma clamp_Fin_bounds (v lo hi : Q) :
  lo <= hi ->
  exists cl : Q, clamp (Fin v) (Fin lo) (Fin hi) = Fin cl /\ lo <= cl <= hi.
Proof.
  intros Hle. unfold clamp, JsNum.max, JsNum.min. simpl.
  destruct (Qle_bool v lo) eqn:E1; simpl.
  - destruct (Qle_bool lo hi) eqn:E2; eexists; split; try reflexivity;
      qprop; lra.
  - destruct (Qle_bool v hi) eqn:E2; eexists; split; try reflexivity;
      qprop; lra.
Qed.

Lemma div_Fin (a b : Q) :
  ~ b == 0 -> div (Fin a) (Fin b) = Fin (a / b).
Proof.
  intros Hb. simpl. destruct (Qeq_bool b 0) eqn:E; auto. qprop. contradiction.
Qed.

Lemma unit_clamp_Fin (q : Q) :
  exists u : Q, JsNum.max (Fin 0) (JsNum.min (Fin 1) (Fin q)) = Fin u.
Proof.
  unfold JsNum.max, JsNum.min. simpl.
  destruct (Qle_bool 1 q); simpl; [destruct (Qle_bool 0 1) | destruct (Qle_bool 0 q)];
    eexists; reflexivity.
Qed.

Lemma min_half_Fin (D : Q) :
  exists ms : Q,
    JsNum.min (Fin 0.5) (Fin D) = Fin ms
    /\ ((0.5 <= D /\ ms == 0.5) \/ (D < 0.5 /\ ms == D)).
Proof.
  unfold JsNum.min. simpl.
  destruct (Qle_bool 0.5 D) eqn:E; eexists; (split; [reflexivity |]); qprop;
    [left | right]; split; auto; reflexivity.
Qed.

Lemma TimeRange_inv_Fin (D s e : Q) :
  Spec.TimeRange_inv (Fin D) {| start := Fin s; end_ := Fin e |} = true
  <-> 0 <= s /\ s <= e /\ e <= D /\ (0.5 <= e - s \/ D <= e - s).
Proof.
  unfold Spec.TimeRange_inv, Spec.minSpan, ge, JsNum.min. simpl.
  split.
  - intros H. qprop. repeat split; auto.
    destruct (Qle_bool 0.5 D) eqn:E; simpl in *; qprop; auto.
  - intros (H0 & H1 & H2 & H3).
    apply Qle_bool_iff in H0, H1, H2. rewrite H0, H1, H2. simpl.
    destruct (Qle_bool 0.5 D) eqn:E; simpl; apply Qle_bool_iff; qprop;
      destruct H3; lra.
Qed.

Lemma max_Fin_Qmax (a b a' b' : Q) :
  a' == a -> b' == b ->
  exists m : Q, JsNum.max (Fin a') (Fin b') = Fin m /\ m == Qmax a b.
Proof.
  intros Ha Hb. unfold JsNum.max. cbn [le].
  destruct (Qle_bool a' b') eqn:E; eexists; (split; [reflexivity |]);
    qprop; qminmax; lra.
Qed.

Lemma min_Fin_Qmin (a b a' b' : Q) :
  a' == a -> b' == b ->
  exists m : Q, JsNum.min (Fin a') (Fin b') = Fin m /\ m == Qmin a b.
Proof.
  intros Ha Hb. unfold JsNum.min. cbn [le].
  destruct (Qle_bool a' b') eqn:E; eexists; (split; [reflexivity |]);
    qprop; qminmax; lra.
Qed.

(** The component's [clamp] on finite numbers is the clamp of the
    specification. *)
Lemma clamp_Fin_spec (v lo hi v' lo' hi' : Q) :
  v' == v -> lo' == lo -> hi' == hi ->
  exists c : Q,
    clamp (Fin v') (Fin lo') (Fin hi') = Fin c /\ c == Spec.clamp v lo hi.
Proof.
  intros Hv Hlo Hhi. unfold clamp, JsNum.max. cbn [le].
  destruct (Qle_bool v' lo') eqn:E1; unfold JsNum.min; cbn [le].
  - destruct (Qle_bool lo' hi') eqn:E2; eexists; (split; [reflexivity |]);
      qprop; unfold Spec.clamp; qminmax; lra.
  - destruct (Qle_bool v' hi') eqn:E2; eexists; (split; [reflexivity |]);
      qprop; unfold Spec.clamp; qminmax; lra.
Qed.

(** On an interval that is not empty the clamp of the specification is
    the lower bound below the interval, the upper bound above it and the
    value itself inside. *)
Lemma Spec_clamp_cases (v lo hi : Q) :
  lo <= hi ->
  (v < lo /\ Spec.clamp v lo hi == lo)
  \/ (lo <= v <= hi /\ Spec.clamp v lo hi == v)
  \/ (hi < v /\ Spec.clamp v lo hi == hi).
Proof.
  intros H. unfold Spec.clamp. qminmax. lra.
Qed.

(** For a finite pointer offset, a positive finite axis width and a
    finite duration other than zero, the time [getPosition] computes is
    the one of the specification's mapping
    [clamp(x, 0, W) / W * duration]. *)
Lemma getPosition_is_mappedTime (p : TimelineProps) (w : World)
    (cap : list nat) (x l W D : Q) :
  duration p = Fin D -> ~ D == 0 -> 0 < W ->
  containerRef w
  = Some {| rect := {| left := Fin l; width := Fin W |}; captured := cap |} ->
  exists t : Q,
    getPosition p w (Fin x)
    = Some {| pos_x := Fin (x - l); pos_time := Fin t |}
    /\ t == Spec.mappedTime (x - l) W D.
Proof.
  intros HD HD0 HW Hc.
  assert (Hdur : JsNum.eq (duration p) (Fin 0) = false).
  { rewrite HD. simpl. destruct (Qeq_bool D 0) eqn:E; auto. qprop.
    contradiction. }
  rewrite (getPosition_some p w _ _ Hc Hdur).
  cbn [rect width left]. rewrite HD. cbn [sub].
  assert (HW0 : ~ W == 0) by lra.
  rewrite (div_Fin _ _ HW0).
  unfold Spec.mappedTime, Spec.clamp.
  set (o := x - l).
  assert (Hq : o / W * W == o) by (field; exact HW0).
  set (r := o / W) in *. clearbody r.
  assert (Hpos : forall u : Q,
             Qmin (Qmax o 0) W == u * W -> u * D == Qmin (Qmax o 0) W / W * D).
  { intros u Hu. rewrite Hu. field. exact HW0. }
  unfold JsNum.max, JsNum.min. cbn [le].
  destruct (Qle_bool 1 r) eqn:E1; cbn [le].
  - destruct (Qle_bool 0 1) eqn:E2; [| discriminate].
    cbn [mul]. eexists. split; [reflexivity |]. apply Hpos.
    qprop. assert (W <= o) by nra. qminmax. lra.
  - destruct (Qle_bool 0 r) eqn:E2; cbn [mul]; eexists;
      (split; [reflexivity |]); apply Hpos; qprop.
    + assert (0 <= o /\ o <= W) as [? ?] by (split; nra). qminmax. lra.
    + assert (o < 0) by nra. qminmax. lra.
Qed.

End Mapping.

(** C5. On pointer-down with a positive duration: with an active trim
    range, a hit on the trim body, the start handle or the end handle
    opens a drag session in mode move, adjust-start or adjust-end with
    the pointer's x and the current range as origin, captures the
    pointer, issues no seek and does not enter scrubbing; with no trim
    range, whatever the target, the controller captures the pointer,
    enters scrubbing and issues exactly one seek, to the time
    [getPosition] maps the pointer to, which for finite geometry of
    positive width is the mapped time of the specification,
    [clamp(x, 0, W) / W * duration] at the offset [x = clientX - left]. *)
Theorem pointer_down_dispatch
    (p : Timeline.TimelineProps) (e : Timeline.PointerEvent)
    (w : Timeline.World) (c : Timeline.Container) :
  Timeline.containerRef w = Some c ->
  lt (Fin 0) (Timeline.duration p) = true ->
  let w' := Timeline.handlePointerDown p e w in
  (forall (range : TimeRange) (m : Timeline.TrimDragMode),
      Timeline.trimRange p = Some range ->
      (Timeline.role e = Some "trim-range"%string /\ m = Timeline.move)
      \/ (Timeline.role e = Some "trim-handle-start"%string
          /\ m = Timeline.adjust_start)
      \/ (Timeline.role e = Some "trim-handle-end"%string
          /\ m = Timeline.adjust_end) ->
      Timeline.trimDrag w'
      = Some {| Timeline.mode := m;
                Timeline.startX := Timeline.clientX e;
                Timeline.startRange := range |}
      /\ Timeline.calls w' = Timeline.calls w
      /\ Timeline.isScrubbing w' = Timeline.isScrubbing w
      /\ Spec.capturedBy w' (Timeline.pointerId e) = true)
  /\ (Timeline.trimRange p = None ->
      exists pos : Timeline.Position,
        Timeline.getPosition p w (Timeline.clientX e) = Some pos
        /\ Timeline.calls w'
           = Timeline.calls w ++ [Timeline.onSeek (Timeline.pos_time pos)]
        /\ Timeline.isScrubbing w' = true
        /\ Timeline.trimDrag w' = Timeline.trimDrag w
        /\ Spec.capturedBy w' (Timeline.pointerId e) = true
        /\ (forall x l W D : Q,
              Timeline.clientX e = Fin x ->
              Timeline.left (Timeline.rect c) = Fin l ->
              Timeline.width (Timeline.rect c) = Fin W ->
              Timeline.duration p = Fin D -> 0 < W ->
              equiv (Timeline.pos_time pos)
                (Fin (Spec.mappedTime (x - l) W D)))).
Proof.
  intros Hc Hpos0 w'. pose proof Hpos0 as Hpos.
  apply positive_not_zero in Hpos.
  subst w'. unfold Timeline.handlePointerDown. rewrite Hc, Hpos. split.
  - intros range m Hrange Hrole. rewrite Hrange.
    assert (Hm : Timeline.isTrimRole (Timeline.role e) = true
                 /\ Timeline.modeOfRole (Timeline.role e) = m).
    { destruct Hrole as [[-> ->] | [[-> ->] | [-> ->]]]; split; reflexivity. }
    destruct Hm as [-> ->].
    unfold Spec.capturedBy, Timeline.setPointerCapture, Timeline.withCaptured,
      Timeline.hasPointerCapture. simpl. rewrite Hc. simpl.
    rewrite Nat.eqb_refl. auto.
  - intros Hnone. rewrite Hnone.
    set (w1 := Timeline.setIsScrubbing true
                 (Timeline.setPointerCapture (Timeline.pointerId e) w)).
    assert (Hc1 : Timeline.containerRef w1
                  = Some {| Timeline.rect := Timeline.rect c;
                            Timeline.captured :=
                              Timeline.pointerId e :: Timeline.captured c |}).
    { subst w1. simpl. now rewrite Hc. }
    set (tm := mul (JsNum.max (Fin 0)
                     (JsNum.min (Fin 1)
                        (div (sub (Timeline.clientX e)
                                (Timeline.left (Timeline.rect c)))
                           (Timeline.width (Timeline.rect c)))))
                (Timeline.duration p)).
    exists {| Timeline.pos_x :=
                sub (Timeline.clientX e) (Timeline.left (Timeline.rect c));
              Timeline.pos_time := tm |}.
    split; [apply (getPosition_some p w c _ Hc Hpos) |].
    assert (Hscrub :
      Timeline.scrubTo p (Timeline.clientX e) w1
      = Timeline.call (Timeline.onSeek tm) w1).
    { unfold Timeline.scrubTo.
      now rewrite (getPosition_some p w1 _ _ Hc1 Hpos). }
    rewrite Hscrub. simpl Timeline.pos_time.
    set (w2 := Timeline.call (Timeline.onSeek tm) w1).
    assert (H2 : Timeline.calls w2 = Timeline.calls w ++ [Timeline.onSeek tm]
                 /\ Timeline.isScrubbing w2 = true
                 /\ Timeline.trimDrag w2 = Timeline.trimDrag w
                 /\ Spec.capturedBy w2 (Timeline.pointerId e) = true).
    { subst w2 w1. unfold Spec.capturedBy. simpl. rewrite Hc. simpl.
      unfold Timeline.hasPointerCapture. simpl. rewrite Nat.eqb_refl.
      repeat split; reflexivity. }
    destruct H2 as (Hcalls & Hscr & Hdrag & Hcap).
    assert (Hmapped :
      forall x l W D : Q,
        Timeline.clientX e = Fin x ->
        Timeline.left (Timeline.rect c) = Fin l ->
        Timeline.width (Timeline.rect c) = Fin W ->
        Timeline.duration p = Fin D -> 0 < W ->
        equiv tm (Fin (Spec.mappedTime (x - l) W D))).
    { intros x l W D Hx Hl HW HD HWpos.
      assert (HD0 : ~ D == 0).
      { rewrite HD in Hpos0. apply lt_Fin in Hpos0. lra. }
      assert (Hc' : Timeline.containerRef w
                    = Some {| Timeline.rect :=
                                {| Timeline.left := Fin l;
                                   Timeline.width := Fin W |};
                              Timeline.captured := Timeline.captured c |}).
      { rewrite Hc. destruct c as [[cl cw] cap]. simpl in Hl, HW.
        now subst. }
      destruct (getPosition_is_mappedTime p w _ x l W D HD HD0 HWpos Hc')
        as (t & Ht & Heq).
      pose proof (getPosition_some p w c (Timeline.clientX e) Hc Hpos)
        as Hsome.
      fold tm in Hsome. rewrite Hx, Ht in Hsome.
      assert (Htm : Fin t = tm) by congruence.
      rewrite <- Htm. exact Heq. }
    destruct (Timeline.pointerType e); simpl; auto 10.
    destruct (calls_updateHover p (Timeline.clientX e) w2)
      as (Hc' & Hd' & Hs' & Hr').
    unfold Spec.capturedBy. rewrite Hc', Hd', Hs', Hr'. auto 10.
Qed.

Lemma pointer_down_dispatch_witness :
  let c := Samples.axis100 in
  let w := Samples.idleWorld c in
  let e := Samples.mouseAt (Fin 50) (Some "trim-range"%string) in
  let free := Samples.props (Fin 10) None in
  let trimmed := Samples.props (Fin 10) (Some Samples.r25) in
  Timeline.containerRef w = Some c
  /\ lt (Fin 0) (Timeline.duration free) = true
  /\ lt (Fin 0) (Timeline.duration trimmed) = true
  /\ Timeline.trimDrag (Timeline.handlePointerDown trimmed e w)
     = Some (Samples.session Timeline.move (Fin 50) Samples.r25)
  /\ Timeline.calls (Timeline.handlePointerDown trimmed e w) = []
  /\ Timeline.isScrubbing (Timeline.handlePointerDown trimmed e w) = false
  /\ Timeline.isScrubbing (Timeline.handlePointerDown free e w) = true
  /\ exists t : num,
       Timeline.calls (Timeline.handlePointerDown free e w)
       = [Timeline.onSeek t]
       /\ equiv t (Fin 5).
Proof.
  intros c w e free trimmed.
  split; [reflexivity | split; [reflexivity | split; [reflexivity |]]].
  destruct (proj1 (pointer_down_dispatch trimmed e w c eq_refl eq_refl)
              Samples.r25 Timeline.move eq_refl (or_introl (conj eq_refl eq_refl)))
    as (Hdrag & Hcalls & Hscr & _).
  split; [exact Hdrag |]. split; [exact Hcalls |]. split; [exact Hscr |].
  destruct (proj2 (pointer_down_dispatch free e w c eq_refl eq_refl) eq_refl)
    as (pos & _ & Hseek & Hscrub & _ & _ & Hmapped).
  split; [exact Hscrub |].
  exists (Timeline.pos_time pos). split; [exact Hseek |].
  apply (equiv_trans _ _ _
           (Hmapped 50 0 100 10 eq_refl eq_refl eq_refl eq_refl eq_refl)).
  reflexivity.
Defined.

(** * Drag resolution *)

Section DragResolution.

Import Timeline.

Lemma handlePointerMove_dragging (p : TimelineProps) (e : PointerEvent)
    (w : World) (c : Container) (d : TrimDrag) :
  containerRef w = Some c -> trimDrag w = Some d ->
  JsNum.eq (duration p) (Fin 0) = false ->
  handlePointerMove p e w
  = match dragRange p w c d e with
    | Some r => call (onTrimRangeChange r) w
    | None => w
    end.
Proof.
  intros Hc Hd Hdur. unfold handlePointerMove. now rewrite Hc, Hdur, Hd.
Qed.

End DragResolution.




(** * Range invariant under drag updates *)

Section DragInvariant.

Import Timeline.

(** For finite geometry with a non-zero axis width, a drag update from
    an origin range satisfying the invariant is ignored when the
    duration is zero and otherwise issues one range, which satisfies the
    invariant again and is not empty.  This is a fact of exact
    arithmetic: the bounds [end <= duration] and [end - start >= minSpan]
    are met with equality at the stops of a drag, where rounding to
    binary64 can miss them by a unit in the last place. *)
Lemma drag_update_preserves_invariant
    (D W l x x0 s e : Q) (m : TrimDragMode) (cap : list nat)
    (p : TimelineProps) (ev : PointerEvent) (w : World) :
  duration p = Fin D -> clientX ev = Fin x ->
  containerRef w
  = Some {| rect := {| left := Fin l; width := Fin W |}; captured := cap |} ->
  trimDrag w
  = Some {| mode := m; startX := Fin x0;
            startRange := {| start := Fin s; end_ := Fin e |} |} ->
  ~ W == 0 ->
  Spec.TimeRange_inv (Fin D) {| start := Fin s; end_ := Fin e |} = true ->
  (D == 0 /\ handlePointerMove p ev w = w)
  \/ (exists s' e' : Q,
        handlePointerMove p ev w
        = call (onTrimRangeChange {| start := Fin s'; end_ := Fin e' |}) w
        /\ Spec.TimeRange_inv (Fin D) {| start := Fin s'; end_ := Fin e' |}
           = true
        /\ s' < e'
        /\ (m = move -> e' - s' == e - s)).
Proof.
  intros HD Hx Hc Hd HW Hinv.
  destruct (Qeq_bool D 0) eqn:ED.
  - left. qprop. split; auto.
    unfold handlePointerMove. rewrite Hc, HD. simpl.
    apply Qeq_bool_iff in ED. now rewrite ED.
  - right.
    assert (Hdur : JsNum.eq (duration p) (Fin 0) = false)
      by (rewrite HD; exact ED).
    rewrite (handlePointerMove_dragging p ev w _ _ Hc Hd Hdur).
    apply TimeRange_inv_Fin in Hinv. destruct Hinv as (H0 & H1 & H2 & H3).
    qprop.
    assert (HDpos : 0 < D) by (destruct (Qlt_le_dec 0 D); auto; exfalso; apply ED; lra).
    unfold dragRange. rewrite (getPosition_some p w _ _ Hc Hdur).
    cbn [mode startX startRange start end_ rect width left pos_time].
    rewrite HD, Hx. cbn [sub add]. rewrite !(div_Fin _ _ HW). cbn [mul].
    destruct (min_half_Fin D) as (ms & -> & Hms).
    destruct (unit_clamp_Fin ((x - l) / W)) as (u & ->).
    cbn [sub add mul].
    destruct m.
    + (* move *)
      assert (Hmax : JsNum.max (Fin 0) (Fin (D - (e - s))) = Fin (D - (e - s))).
      { unfold JsNum.max. simpl.
        destruct (Qle_bool 0 (D - (e - s))) eqn:E; auto. qprop. lra. }
      rewrite Hmax.
      destruct (clamp_Fin_bounds (s + (x - x0) / W * D) 0 (D - (e - s)))
        as (cl & -> & Hcl); [lra |].
      exists cl, (cl + (e - s)). split; [reflexivity |].
      split; [apply TimeRange_inv_Fin; repeat split; lra |].
      split; [lra |]. intros _. ring.
    + (* adjust start *)
      destruct (clamp_Fin_bounds (u * D) 0 (e - ms)) as (cl & -> & Hcl);
        [lra |].
      exists cl, e. split; [reflexivity |].
      split; [apply TimeRange_inv_Fin; repeat split; lra |].
      split; [lra | discriminate].
    + (* adjust end *)
      destruct (clamp_Fin_bounds (u * D) (s + ms) D) as (cl & -> & Hcl);
        [lra |].
      exists s, cl. split; [reflexivity |].
      split; [apply TimeRange_inv_Fin; repeat split; lra |].
      split; [lra | discriminate].
Qed.

End DragInvariant.

(** C1. With an axis of width zero the displacement [0 / 0] is NaN and
    passes through the clamps: a move-mode update from the origin range
    [2, 5] (which satisfies the invariant for duration 10) with the
    pointer at its origin issues the range [NaN, NaN], which does not
    satisfy the invariant. *)
Theorem zero_width_drag_emits_NaN_range :
  let r := {| start := Fin 2; end_ := Fin 5 |} in
  let w' :=
    Timeline.handlePointerMove
      (Samples.props (Fin 10) (Some r))
      (Samples.mouseAt (Fin 20) None)
      (Samples.draggingWorld (Samples.axis (Fin 0) (Fin 0))
         (Samples.session Timeline.move (Fin 20) r)) in
  Spec.TimeRange_inv (Fin 10) r = true
  /\ Timeline.calls w'
     = [Timeline.onTrimRangeChange {| start := NaN; end_ := NaN |}]
  /\ Spec.TimeRange_inv (Fin 10) {| start := NaN; end_ := NaN |} = false.
Proof. repeat split. Qed.

(** * Degenerate geometry *)

Section Degenerate.

Import Timeline.

(** With duration zero the pointer-down and pointer-move handlers leave
    the world as it is (no seek, no hover, no trim update), and the
    coordinate mapping yields nothing. *)
Lemma zero_duration_is_noop (p : TimelineProps) (e : PointerEvent)
    (w : World) (x : num) :
  JsNum.eq (duration p) (Fin 0) = true ->
  handlePointerDown p e w = w
  /\ handlePointerMove p e w = w
  /\ getPosition p w x = None
  /\ updateHover p x w = w
  /\ scrubTo p x w = w.
Proof.
  intros Hd.
  assert (Hpos : getPosition p w x = None).
  { unfold getPosition. rewrite Hd. now destruct (containerRef w). }
  unfold handlePointerDown, handlePointerMove, updateHover, scrubTo.
  rewrite Hpos, Hd. destruct (containerRef w); auto.
Qed.

(** With an axis of width zero and a finite duration other than zero
    the coordinate mapping still yields a position: its time is NaN for
    a pointer at the left edge of the axis, the duration to the right of
    it and 0 to the left of it. *)
Lemma zero_width_is_mapped (p : TimelineProps) (w : World) (cap : list nat)
    (x l D : Q) :
  duration p = Fin D -> ~ D == 0 ->
  containerRef w
  = Some {| rect := {| left := Fin l; width := Fin 0 |}; captured := cap |} ->
  exists t : num,
    getPosition p w (Fin x)
    = Some {| pos_x := Fin (x - l); pos_time := t |}
    /\ ((x == l /\ t = NaN)
        \/ (l < x /\ equiv t (Fin D))
        \/ (x < l /\ equiv t (Fin 0))).
Proof.
  intros HD HD0 Hc.
  assert (Hdur : JsNum.eq (duration p) (Fin 0) = false).
  { rewrite HD. simpl. destruct (Qeq_bool D 0) eqn:E; auto. qprop.
    contradiction. }
  rewrite (getPosition_some p w _ _ Hc Hdur).
  cbn [rect width left sub]. rewrite HD.
  eexists. split; [reflexivity |].
  set (o := x - l).
  assert (Hsgn : (Qnum o = 0%Z -> o == 0)
                 /\ (forall q, Qnum o = Zpos q -> 0 < o)
                 /\ (forall q, Qnum o = Zneg q -> o < 0)).
  { unfold Qeq, Qlt. simpl. repeat split; intros; lia. }
  destruct Hsgn as (H0 & Hp & Hn).
  cbn [div]. change (Qeq_bool 0 0) with true. cbv iota.
  unfold Qsgn. destruct (Qnum o) as [| q | q] eqn:E; cbn [Z.sgn inf_of_sign].
  - left. split; [specialize (H0 eq_refl); unfold o in H0; lra | reflexivity].
  - right. left. specialize (Hp q eq_refl).
    split; [unfold o in Hp; lra |]. simpl. ring.
  - right. right. specialize (Hn q eq_refl).
    split; [unfold o in Hn; lra |]. simpl. ring.
Qed.

End Degenerate.

(** C3. With duration 10 and an axis of width zero, pointer events at
    the axis origin are not ignored: the coordinate mapping yields the
    time [0 / 0 = NaN]; a pointer-down starts scrubbing and issues a seek
    to NaN; a mouse pointer-move over the idle controller sets the hover
    state with time NaN. *)
Theorem zero_width_pointer_down_seeks_NaN :
  let p := Samples.props (Fin 10) None in
  let e := Samples.mouseAt (Fin 0) None in
  let w := Samples.idleWorld (Samples.axis (Fin 0) (Fin 0)) in
  Timeline.getPosition p w (Fin 0)
  = Some {| Timeline.pos_x := Fin 0; Timeline.pos_time := NaN |}
  /\ Timeline.calls (Timeline.handlePointerDown p e w) = [Timeline.onSeek NaN]
  /\ Timeline.isScrubbing (Timeline.handlePointerDown p e w) = true
  /\ Timeline.hoverInfo (Timeline.handlePointerMove p e w)
     = Some {| Timeline.hover_x := Fin 0; Timeline.hover_time := NaN;
               Timeline.hover_url := None |}.
Proof. repeat split. Qed.

(** * Position reconciliation in the owning session *)

Section Reconciliation.

Import App.













End Reconciliation.






(** * The sampling schedule *)

Section Schedule.

Import FrameExtract.

Lemma safeDuration_positive (d : Q) :
  0 < d -> safeDurationOf (Fin d) = Fin d /\ truthy (Fin d) = true.
Proof.
  intros Hd. unfold safeDurationOf, gt. simpl.
  destruct (Qle_bool d 0) eqn:E; [qprop; lra |]. simpl. split; auto.
  destruct (Qeq_bool d 0) eqn:E0; auto. qprop. lra.
Qed.

Lemma safeDuration_unusable (duration : num) :
  isFinite duration && gt duration (Fin 0) = false ->
  truthy (safeDurationOf duration) = false.
Proof.
  intros H. unfold safeDurationOf. now rewrite H.
Qed.

Lemma totalFrames_Fin (d : Q) :
  exists k : Z,
    totalFramesOf (Fin d) = Fin (inject_Z k) /\ (10 <= k <= 30)%Z.
Proof.
  unfold totalFramesOf. cbn [mul floor].
  set (f := Qfloor (d * 1.5)).
  unfold JsNum.max. cbn [le].
  destruct (Qle_bool 10 (inject_Z f)) eqn:E10.
  - unfold JsNum.min. cbn [le].
    destruct (Qle_bool 30 (inject_Z f)) eqn:E30.
    + exists 30%Z. split; [reflexivity | lia].
    + exists f. split; [reflexivity |]. qprop.
      change 10 with (inject_Z 10) in E10.
      change 30 with (inject_Z 30) in E30.
      rewrite <- Zle_Qle in E10. rewrite <- Zlt_Qlt in E30. lia.
  - exists 10%Z. split; [reflexivity | lia].
Qed.

Lemma timestampAt_Fin (d : Q) :
  0 < d ->
  exists mt step : Q,
    0 <= mt /\ mt < d /\ 0 < step
    /\ forall i : nat, timestampAt (Fin d) i = Fin (Spec.qstamp mt step i).
Proof.
  intros Hd. unfold timestampAt.
  destruct (totalFrames_Fin d) as (k & -> & Hk).
  assert (Hk0 : 0 < inject_Z k).
  { change 0 with (inject_Z 0). rewrite <- Zlt_Qlt. lia. }
  assert (Hdiv : div (Fin d) (Fin (inject_Z k)) = Fin (d / inject_Z k)).
  { apply div_Fin. lra. }
  rewrite Hdiv.
  set (mt := if Qle_bool 0 (d - 0.01) then d - 0.01 else 0).
  assert (Hmax : JsNum.max (Fin 0) (sub (Fin d) (Fin 0.01)) = Fin mt).
  { unfold JsNum.max, mt. cbn [sub le]. now destruct (Qle_bool 0 (d - 0.01)). }
  rewrite Hmax.
  exists mt, (d / inject_Z k). repeat split.
  - unfold mt. destruct (Qle_bool 0 (d - 0.01)) eqn:E; qprop; lra.
  - unfold mt. destruct (Qle_bool 0 (d - 0.01)) eqn:E; qprop; lra.
  - apply Qlt_shift_div_l; lra.
  - intros i. unfold ofNat, Spec.qstamp, JsNum.min. cbn [mul le].
    now destruct (Qle_bool mt (inject_Z (Z.of_nat i) * (d / inject_Z k))).
Qed.

Lemma qstamp_bounds (mt step : Q) (i : nat) :
  0 <= mt -> 0 < step ->
  0 <= Spec.qstamp mt step i /\ Spec.qstamp mt step i <= mt.
Proof.
  intros Hmt Hstep. unfold Spec.qstamp.
  assert (Hx : 0 <= inject_Z (Z.of_nat i) * step).
  { apply Qmult_le_0_compat; [| lra].
    change 0 with (inject_Z 0). rewrite <- Zle_Qle. lia. }
  destruct (Qle_bool mt (inject_Z (Z.of_nat i) * step)) eqn:E; qprop; lra.
Qed.

Lemma qstamp_monotone (mt step : Q) (i j : nat) :
  0 < step -> (i <= j)%nat ->
  Spec.qstamp mt step i <= Spec.qstamp mt step j.
Proof.
  intros Hstep Hij. unfold Spec.qstamp.
  assert (Hx : inject_Z (Z.of_nat i) * step <= inject_Z (Z.of_nat j) * step).
  { apply Qmult_le_compat_r; [| lra]. rewrite <- Zle_Qle. lia. }
  destruct (Qle_bool mt (inject_Z (Z.of_nat i) * step)) eqn:Ei;
    destruct (Qle_bool mt (inject_Z (Z.of_nat j) * step)) eqn:Ej;
    qprop; lra.
Qed.

Lemma ascending_map_seq (f : nat -> num) (n : nat) :
  (forall i j, (i <= j)%nat -> le (f i) (f j) = true) ->
  forall a : nat, Spec.ascending (map f (seq a n)).
Proof.
  intros Hf. unfold Spec.ascending.
  induction n as [| n IH]; intros a; simpl; constructor.
  - apply IH.
  - apply Forall_forall. intros y Hy.
    apply in_map_iff in Hy as (j & <- & Hj). apply in_seq in Hj.
    apply Hf. lia.
Qed.

Lemma sampleLoop_timestamps (grab : nat -> num -> result string) (sd : num)
    (todo : list nat) :
  forall acc frames : list FrameThumbnail,
    sampleLoop grab sd todo acc = Ok frames ->
    map timestamp frames = map timestamp acc ++ map (timestampAt sd) todo.
Proof.
  induction todo as [| i rest IH]; intros acc frames H; simpl in H.
  - injection H as <-. now rewrite app_nil_r.
  - destruct (grab i (timestampAt sd i)) as [u | err]; simpl in H;
      [| discriminate].
    rewrite (IH _ _ H), map_app. simpl. now rewrite <- app_assoc.
Qed.

Lemma sampleLoop_returns (grab : nat -> num -> result string) (sd : num)
    (todo : list nat) :
  (forall i t, exists u, grab i t = Ok u) ->
  forall acc : list FrameThumbnail,
    exists frames, sampleLoop grab sd todo acc = Ok frames.
Proof.
  intros Hgrab. induction todo as [| i rest IH]; intros acc; simpl.
  - now exists acc.
  - destruct (Hgrab i (timestampAt sd i)) as [u ->]. simpl. apply IH.
Qed.

End Schedule.

Section Sampled.

Import FrameExtract.

Lemma schedule_sampled (grab : nat -> num -> result string) (d : Q)
    (frames : list FrameThumbnail) :
  0 < d ->
  sampleLoop grab (Fin d) (seq 0 (passes (totalFramesOf (Fin d)))) []
  = Ok frames ->
  Spec.sampled (Fin d) frames.
Proof.
  intros Hd Hloop. apply sampleLoop_timestamps in Hloop. simpl in Hloop.
  destruct (totalFrames_Fin d) as (k & Hk & Hrange).
  rewrite Hk in Hloop. unfold passes in Hloop. rewrite Qceiling_Z in Hloop.
  destruct (timestampAt_Fin d Hd) as (mt & step & Hmt0 & Hmtd & Hstep & Hts).
  unfold Spec.sampled. repeat split.
  - rewrite Hloop. apply ascending_map_seq. intros i j Hij.
    rewrite !Hts. apply le_Fin. now apply qstamp_monotone.
  - rewrite <- (length_map timestamp), Hloop, length_map, length_seq. lia.
  - rewrite <- (length_map timestamp), Hloop, length_map, length_seq. lia.
  - apply Forall_forall. intros f Hf.
    apply (in_map timestamp) in Hf. rewrite Hloop in Hf.
    apply in_map_iff in Hf as (i & <- & _). rewrite Hts.
    destruct (qstamp_bounds mt step i Hmt0 Hstep) as [Hlo Hhi].
    split; [apply le_Fin | apply lt_Fin]; lra.
Qed.

Lemma usable_duration (duration : num) :
  isFinite duration && gt duration (Fin 0) = true ->
  exists d : Q, duration = Fin d /\ 0 < d.
Proof.
  destruct duration as [d | | |]; simpl; try discriminate.
  unfold gt. intros H. exists d. split; auto. now apply lt_Fin.
Qed.

Lemma extractFramesWithVideo_sampled (grab : nat -> num -> result string)
    (duration : num) (frames : list FrameThumbnail) :
  extractFramesWithVideo grab duration = Ok frames ->
  if isFinite duration && gt duration (Fin 0)
  then Spec.sampled duration frames
  else frames = [].
Proof.
  unfold extractFramesWithVideo. intros H.
  destruct (isFinite duration && gt duration (Fin 0)) eqn:E.
  - destruct (usable_duration _ E) as (d & -> & Hd).
    destruct (safeDuration_positive d Hd) as [Hsafe Htruthy].
    rewrite Hsafe, Htruthy in H. simpl in H.
    eapply schedule_sampled; eauto.
  - rewrite (safeDuration_unusable _ E) in H. simpl in H. congruence.
Qed.

Lemma extractFramesWithFFmpeg_sampled (grab : nat -> num -> result string)
    (loadError : option string) (duration : num)
    (frames : list FrameThumbnail) :
  extractFramesWithFFmpeg grab loadError duration = Ok frames ->
  if isFinite duration && gt duration (Fin 0)
  then Spec.sampled duration frames
  else frames = [].
Proof.
  unfold extractFramesWithFFmpeg. destruct loadError; [discriminate |].
  apply extractFramesWithVideo_sampled.
Qed.

End Sampled.

(** C8. Whatever the extractor that returns (the video path, the FFmpeg
    path, or the first with fallback to the second): for a finite
    duration above zero the returned sequence is in ascending timestamp
    order, has between 10 and 30 entries, and every timestamp lies in
    [0, duration); for any other duration it is empty.  The extractors
    do return: at once with the empty sequence for an unusable duration,
    and with a sequence whenever no frame grab throws. *)
Theorem extracted_frames_are_sampled
    (grabVideo grabFFmpeg : nat -> num -> result string)
    (loadError : option string) (duration : num) :
  (forall frames : list FrameThumbnail,
      FrameExtract.extractFramesWithVideo grabVideo duration = Ok frames
      \/ FrameExtract.extractFramesWithFFmpeg grabFFmpeg loadError duration
         = Ok frames
      \/ FrameExtract.extractTimelineFrames grabVideo grabFFmpeg loadError
           duration = Ok frames ->
      if isFinite duration && gt duration (Fin 0)
      then Spec.sampled duration frames
      else frames = [])
  /\ (isFinite duration && gt duration (Fin 0) = false ->
      FrameExtract.extractFramesWithVideo grabVideo duration = Ok []
      /\ FrameExtract.extractFramesWithFFmpeg grabFFmpeg None duration = Ok []
      /\ FrameExtract.extractTimelineFrames grabVideo grabFFmpeg loadError
           duration = Ok [])
  /\ ((forall i t, exists u, grabVideo i t = Ok u) ->
      exists frames : list FrameThumbnail,
        FrameExtract.extractFramesWithVideo grabVideo duration = Ok frames
        /\ FrameExtract.extractTimelineFrames grabVideo grabFFmpeg loadError
             duration = Ok frames).
Proof.
  split; [| split].
  - intros frames [H | [H | H]].
    + now apply (extractFramesWithVideo_sampled grabVideo).
    + now apply (extractFramesWithFFmpeg_sampled grabFFmpeg loadError).
    + unfold FrameExtract.extractTimelineFrames in H.
      destruct (FrameExtract.extractFramesWithVideo grabVideo duration)
        as [fs | err] eqn:E.
      * injection H as <-.
        now apply (extractFramesWithVideo_sampled grabVideo).
      * now apply (extractFramesWithFFmpeg_sampled grabFFmpeg loadError).
  - intros E.
    assert (Hv : FrameExtract.extractFramesWithVideo grabVideo duration = Ok []).
    { unfold FrameExtract.extractFramesWithVideo.
      now rewrite (safeDuration_unusable _ E). }
    repeat split; auto.
    + unfold FrameExtract.extractFramesWithFFmpeg.
      now rewrite (safeDuration_unusable _ E).
    + unfold FrameExtract.extractTimelineFrames. now rewrite Hv.
  - intros Hgrab.
    assert (Hv : exists frames,
               FrameExtract.extractFramesWithVideo grabVideo duration
               = Ok frames).
    { unfold FrameExtract.extractFramesWithVideo.
      destruct (negb _); [now exists [] |].
      now apply sampleLoop_returns. }
    destruct Hv as [frames Hv]. exists frames. split; auto.
    unfold FrameExtract.extractTimelineFrames. now rewrite Hv.
Qed.

Lemma extracted_frames_are_sampled_witness :
  let grab := fun (_ : nat) (_ : num) => Ok "blob:frame"%string in
  exists frames : list FrameThumbnail,
    FrameExtract.extractFramesWithVideo grab (Fin 4) = Ok frames
    /\ Spec.sampled (Fin 4) frames.
Proof.
  intros grab.
  destruct (proj2 (proj2 (extracted_frames_are_sampled grab grab None (Fin 4)))
              (fun _ _ => ex_intro _ "blob:frame"%string eq_refl))
    as [frames [Hv _]].
  exists frames. split; [exact Hv |].
  exact (proj1 (extracted_frames_are_sampled grab grab None (Fin 4))
           frames (or_introl Hv)).
Defined.

(** * Worked examples *)

Section Examples.

Import Timeline.

Local Abbreviation r25 := Samples.r25.
Local Abbreviation axis100 := Samples.axis100.

(** Origin [2, 5], duration 10, axis of 100 px: dragging the body by
    40 px (4 s) gives [6, 9]. *)
Example move_by_four :
  calls (handlePointerMove (Samples.props (Fin 10) (Some r25))
           (Samples.mouseAt (Fin 60) None)
           (Samples.draggingWorld axis100 (Samples.session move (Fin 20) r25)))
  = [onTrimRangeChange {| start := Fin 6.00; end_ := Fin 9.00 |}].
Proof. reflexivity. Qed.

(** Dragging the body by 100 px (10 s) stops at [7, 10]. *)
Example move_by_ten_is_capped :
  calls (handlePointerMove (Samples.props (Fin 10) (Some r25))
           (Samples.mouseAt (Fin 120) None)
           (Samples.draggingWorld axis100 (Samples.session move (Fin 20) r25)))
  = [onTrimRangeChange {| start := Fin 7; end_ := Fin 10 |}].
Proof. reflexivity. Qed.

(** Dragging the start handle to 4.8 s gives the start 4.5. *)
Example start_handle_keeps_min_span :
  calls (handlePointerMove (Samples.props (Fin 10) (Some r25))
           (Samples.mouseAt (Fin 48) None)
           (Samples.draggingWorld axis100
              (Samples.session adjust_start (Fin 20) r25)))
  = [onTrimRangeChange {| start := Fin 4.5; end_ := Fin 5 |}].
Proof. reflexivity. Qed.

(** The invariant lemma applies to the first example. *)
Example move_by_four_keeps_invariant :
  exists s' e' : Q,
    handlePointerMove (Samples.props (Fin 10) (Some r25))
      (Samples.mouseAt (Fin 60) None)
      (Samples.draggingWorld axis100 (Samples.session move (Fin 20) r25))
    = call (onTrimRangeChange {| start := Fin s'; end_ := Fin e' |})
        (Samples.draggingWorld axis100 (Samples.session move (Fin 20) r25))
    /\ Spec.TimeRange_inv (Fin 10) {| start := Fin s'; end_ := Fin e' |} = true
    /\ s' < e'.
Proof.
  destruct (drag_update_preserves_invariant 10 100 0 60 20 2 5 move []
              (Samples.props (Fin 10) (Some r25))
              (Samples.mouseAt (Fin 60) None)
              (Samples.draggingWorld axis100
                 (Samples.session move (Fin 20) r25))
              eq_refl eq_refl eq_refl eq_refl)
    as [[H0 _] | (s' & e' & Hmove & Hinv & Hlt & _)].
  - intros H. discriminate.
  - reflexivity.
  - discriminate.
  - exists s', e'. auto.
Qed.

End Examples.

(** * Further properties of the timeline *)

Section Scrubbing.

Import Timeline.

Lemma unit_clamp_bounds (q : Q) :
  exists u : Q,
    JsNum.max (Fin 0) (JsNum.min (Fin 1) (Fin q)) = Fin u /\ 0 <= u <= 1.
Proof.
  unfold JsNum.max, JsNum.min. cbn [le].
  destruct (Qle_bool 1 q) eqn:E1; cbn [le].
  - destruct (Qle_bool 0 1) eqn:E2; eexists; (split; [reflexivity |]);
      qprop; lra.
  - destruct (Qle_bool 0 q) eqn:E2; eexists; (split; [reflexivity |]);
      qprop; lra.
Qed.

Lemma getPosition_ignores_state (p : TimelineProps) (w1 w2 : World) (x : num) :
  containerRef w1 = containerRef w2 ->
  getPosition p w1 x = getPosition p w2 x.
Proof. intros H. unfold getPosition. now rewrite H. Qed.

Lemma dragRange_ignores_state (p : TimelineProps) (w1 w2 : World)
    (c : Container) (d : TrimDrag) (e : PointerEvent) :
  containerRef w1 = containerRef w2 ->
  dragRange p w1 c d e = dragRange p w2 c d e.
Proof.
  intros H. unfold dragRange.
  now rewrite (getPosition_ignores_state p w1 w2 _ H).
Qed.

End Scrubbing.

(** X1. With a positive finite duration and an axis of finite geometry
    and non-zero width, the time mapped from any finite pointer position
    is a finite number between 0 and the duration, and it is the time
    [scrubTo] seeks to. *)
Theorem scrub_seeks_within_duration
    (p : Timeline.TimelineProps) (w : Timeline.World) (cap : list nat)
    (x l W D : Q) :
  Timeline.duration p = Fin D -> 0 < D -> ~ W == 0 ->
  Timeline.containerRef w
  = Some {| Timeline.rect := {| Timeline.left := Fin l;
                                Timeline.width := Fin W |};
            Timeline.captured := cap |} ->
  exists t : Q,
    0 <= t <= D
    /\ Timeline.getPosition p w (Fin x)
       = Some {| Timeline.pos_x := Fin (x - l); Timeline.pos_time := Fin t |}
    /\ Timeline.scrubTo p (Fin x) w = Timeline.call (Timeline.onSeek (Fin t)) w.
Proof.
  intros HD HDpos HW Hc.
  assert (Hdur : JsNum.eq (Timeline.duration p) (Fin 0) = false).
  { rewrite HD. simpl. destruct (Qeq_bool D 0) eqn:E; auto. qprop. lra. }
  pose proof (getPosition_some p w _ (Fin x) Hc Hdur) as Hpos.
  cbn [Timeline.rect Timeline.width Timeline.left sub] in Hpos.
  rewrite (div_Fin _ _ HW), HD in Hpos.
  destruct (unit_clamp_bounds ((x - l) / W)) as (u & Hu & Hu01).
  rewrite Hu in Hpos. cbn [mul] in Hpos.
  exists (u * D). split; [nra |]. split; [exact Hpos |].
  unfold Timeline.scrubTo. now rewrite Hpos.
Qed.

Lemma scrub_seeks_within_duration_witness :
  exists t : Q,
    0 <= t <= 10
    /\ Timeline.scrubTo (Samples.props (Fin 10) None) (Fin 50)
         (Samples.idleWorld Samples.axis100)
       = Timeline.call (Timeline.onSeek (Fin t))
           (Samples.idleWorld Samples.axis100).
Proof.
  destruct (scrub_seeks_within_duration (Samples.props (Fin 10) None)
              (Samples.idleWorld Samples.axis100) [] 50 0 100 10
              eq_refl eq_refl) as (t & Ht & _ & Hs).
  - intros H. discriminate.
  - reflexivity.
  - exists t. split; [exact Ht | exact Hs].
Defined.

(** X2. Pointer movement over an idle controller only observes: no
    callback is issued and neither a drag session nor scrubbing starts.
    A pointer that is not a mouse leaves the hover state alone; a mouse
    sets it to the mapped position with the nearest thumbnail's image.
    Leaving the axis issues nothing either and clears the hover state
    unless the controller is scrubbing. *)
Theorem hover_only_observes
    (p : Timeline.TimelineProps) (e : Timeline.PointerEvent)
    (w : Timeline.World) :
  Timeline.trimDrag w = None -> Timeline.isScrubbing w = false ->
  let w' := Timeline.handlePointerMove p e w in
  Timeline.calls w' = Timeline.calls w
  /\ Timeline.idle w'
  /\ Timeline.containerRef w' = Timeline.containerRef w
  /\ (Timeline.pointerType e <> Timeline.mouse ->
      Timeline.hoverInfo w' = Timeline.hoverInfo w)
  /\ (Timeline.pointerType e = Timeline.mouse ->
      forall pos : Timeline.Position,
        Timeline.getPosition p w (Timeline.clientX e) = Some pos ->
        Timeline.hoverInfo w'
        = Some {| Timeline.hover_x := Timeline.pos_x pos;
                  Timeline.hover_time := Timeline.pos_time pos;
                  Timeline.hover_url :=
                    option_map url
                      (Timeline.findFrame (Timeline.frames p)
                         (Timeline.pos_time pos)) |})
  /\ Timeline.calls (Timeline.handlePointerLeave w) = Timeline.calls w
  /\ Timeline.idle (Timeline.handlePointerLeave w)
  /\ Timeline.hoverInfo (Timeline.handlePointerLeave w) = None.
Proof.
  intros Hdrag Hscrub w'. subst w'.
  unfold Timeline.idle, Timeline.handlePointerLeave. rewrite Hscrub.
  unfold Timeline.handlePointerMove.
  destruct (Timeline.containerRef w) as [c |] eqn:Hc.
  2:{ rewrite Hc. repeat split; auto.
      intros _ pos Hpos. unfold Timeline.getPosition in Hpos.
      rewrite Hc in Hpos. discriminate. }
  destruct (JsNum.eq (Timeline.duration p) (Fin 0)) eqn:Hd.
  { rewrite Hc. repeat split; auto.
    intros _ pos Hpos. unfold Timeline.getPosition in Hpos.
    rewrite Hc, Hd in Hpos. discriminate. }
  rewrite Hdrag.
  destruct (Timeline.pointerType e) eqn:Hty.
  - destruct (calls_updateHover p (Timeline.clientX e) w)
      as (Hcalls & Hd' & Hs' & Hc').
    rewrite Hs', Hscrub. rewrite Hcalls, Hd', Hs', Hc', Hc.
    repeat split; auto; try congruence.
    intros _ pos Hpos. unfold Timeline.updateHover. now rewrite Hpos.
  - rewrite Hscrub, Hc. repeat split; auto; discriminate.
  - rewrite Hscrub, Hc. repeat split; auto; discriminate.
Qed.

Lemma hover_only_observes_witness :
  let w := Samples.idleWorld Samples.axis100 in
  let p := Samples.props (Fin 10) None in
  let e := Samples.mouseAt (Fin 50) None in
  Timeline.trimDrag w = None /\ Timeline.isScrubbing w = false
  /\ Timeline.calls (Timeline.handlePointerMove p e w) = Timeline.calls w.
Proof.
  intros w p e. split; [reflexivity | split; [reflexivity |]].
  exact (proj1 (hover_only_observes p e w eq_refl eq_refl)).
Defined.

Section MoveTraces.

Import Timeline.

Lemma drag_moves_trace (p : TimelineProps) (c : Container) (d : TrimDrag)
    (es : list PointerEvent) :
  JsNum.eq (duration p) (Fin 0) = false ->
  forall w : World,
    containerRef w = Some c -> trimDrag w = Some d ->
    let w' := fold_left (fun w e => handlePointerMove p e w) es w in
    exists ranges : list TimeRange,
      Forall2 (fun e r => dragRange p w c d e = Some r) es ranges
      /\ calls w' = calls w ++ map onTrimRangeChange ranges
      /\ trimDrag w' = Some d
      /\ containerRef w' = Some c
      /\ isScrubbing w' = isScrubbing w
      /\ hoverInfo w' = hoverInfo w.
Proof.
  intros Hdur. induction es as [| e es IH]; intros w Hc Hd; simpl.
  - exists []. rewrite app_nil_r. repeat split; auto.
  - rewrite (handlePointerMove_dragging p e w c d Hc Hd Hdur).
    assert (Hr : exists r, dragRange p w c d e = Some r).
    { unfold dragRange. rewrite (getPosition_some p w c _ Hc Hdur).
      destruct (mode d); eauto. }
    destruct Hr as [r Hr]. rewrite Hr.
    set (w1 := call (onTrimRangeChange r) w).
    destruct (IH w1 Hc Hd) as (rs & Hall & Hcalls & Hd' & Hc' & Hs' & Hh').
    exists (r :: rs). split; [| split].
    + constructor; [exact Hr |].
      eapply Forall2_impl; [| exact Hall]. intros e' r' He'.
      now rewrite (dragRange_ignores_state p w w1 c d e').
    + rewrite Hcalls. simpl. now rewrite <- app_assoc.
    + auto.
Qed.

Lemma scrub_moves_trace (p : TimelineProps) (c : Container)
    (es : list PointerEvent) :
  JsNum.eq (duration p) (Fin 0) = false ->
  forall w : World,
    containerRef w = Some c -> trimDrag w = None -> isScrubbing w = true ->
    let w' := fold_left (fun w e => handlePointerMove p e w) es w in
    exists times : list num,
      Forall2
        (fun e t =>
           option_map pos_time (getPosition p w (clientX e)) = Some t)
        es times
      /\ calls w' = calls w ++ map onSeek times
      /\ trimDrag w' = None
      /\ isScrubbing w' = true
      /\ containerRef w' = Some c.
Proof.
  intros Hdur. induction es as [| e es IH]; intros w Hc Hd Hs; simpl.
  - exists []. rewrite app_nil_r. repeat split; auto.
  - set (w0 := match pointerType e with
               | mouse => updateHover p (clientX e) w
               | _ => w
               end).
    assert (H0 : calls w0 = calls w /\ trimDrag w0 = None
                 /\ isScrubbing w0 = true /\ containerRef w0 = Some c).
    { subst w0. destruct (pointerType e); auto.
      destruct (calls_updateHover p (clientX e) w) as (H1 & H2 & H3 & H4).
      rewrite H1, H2, H3, H4. auto. }
    destruct H0 as (Hcalls0 & Hd0 & Hs0 & Hc0).
    assert (Hstep : handlePointerMove p e w
                    = scrubTo p (clientX e) w0).
    { unfold handlePointerMove. rewrite Hc, Hdur, Hd. fold w0.
      now rewrite Hs0. }
    rewrite Hstep. unfold scrubTo.
    pose proof (getPosition_some p w0 c (clientX e) Hc0 Hdur) as Hpos.
    rewrite Hpos.
    set (t := pos_time _).
    set (w1 := call (onSeek t) w0).
    destruct (IH w1) as (ts & Hall & Hcalls & Hd' & Hs' & Hc'); auto.
    exists (t :: ts). split; [| split].
    + constructor.
      * rewrite (getPosition_ignores_state p w w0) by congruence.
        now rewrite Hpos.
      * eapply Forall2_impl; [| exact Hall]. intros e' t' He'.
        rewrite (getPosition_ignores_state p w w1); auto.
        subst w1. simpl. congruence.
    + rewrite Hcalls. subst w1. simpl. rewrite Hcalls0.
      now rewrite <- app_assoc.
    + auto.
Qed.

End MoveTraces.

(** X3. During a drag session every pointer-move issues exactly one
    trim-range update and nothing else changes: after any sequence of
    moves the session, its origin and the hover and scrubbing state are
    as before, and the updates are, in order, the ranges resolved from
    the session's origin and each event alone.  Repeating an event
    repeats its range. *)
Theorem drag_moves_update_once_each
    (p : Timeline.TimelineProps) (w : Timeline.World)
    (c : Timeline.Container) (d : Timeline.TrimDrag)
    (es : list Timeline.PointerEvent) :
  JsNum.eq (Timeline.duration p) (Fin 0) = false ->
  Timeline.containerRef w = Some c -> Timeline.trimDrag w = Some d ->
  let w' := fold_left (fun w e => Timeline.handlePointerMove p e w) es w in
  exists ranges : list TimeRange,
    Forall2 (fun e r => Timeline.dragRange p w c d e = Some r) es ranges
    /\ Timeline.calls w'
       = Timeline.calls w ++ map Timeline.onTrimRangeChange ranges
    /\ Timeline.trimDrag w' = Some d
    /\ Timeline.isScrubbing w' = Timeline.isScrubbing w
    /\ Timeline.hoverInfo w' = Timeline.hoverInfo w.
Proof.
  intros Hdur Hc Hd w'.
  destruct (drag_moves_trace p c d es Hdur w Hc Hd)
    as (rs & H1 & H2 & H3 & _ & H4 & H5).
  exists rs. auto.
Qed.

Lemma drag_moves_update_once_each_witness :
  let d := Samples.session Timeline.move (Fin 20) Samples.r25 in
  let w := Samples.draggingWorld Samples.axis100 d in
  let p := Samples.props (Fin 10) (Some Samples.r25) in
  let e := Samples.mouseAt (Fin 60) None in
  exists ranges : list TimeRange,
    Forall2 (fun e r => Timeline.dragRange p w Samples.axis100 d e = Some r)
      [e; e] ranges
    /\ Timeline.calls
         (Timeline.handlePointerMove p e (Timeline.handlePointerMove p e w))
       = map Timeline.onTrimRangeChange ranges.
Proof.
  intros d w p e.
  destruct (drag_moves_update_once_each p w Samples.axis100 d [e; e]
              eq_refl eq_refl eq_refl) as (rs & H1 & H2 & _).
  exists rs. split; [exact H1 | exact H2].
Defined.

(** X4. While scrubbing, every pointer-move issues exactly one seek, to
    the time mapped from that event's position, whatever the pointer
    type; no trim update is issued and the controller stays in
    scrubbing. *)
Theorem scrub_moves_seek_once_each
    (p : Timeline.TimelineProps) (w : Timeline.World)
    (c : Timeline.Container) (es : list Timeline.PointerEvent) :
  JsNum.eq (Timeline.duration p) (Fin 0) = false ->
  Timeline.containerRef w = Some c ->
  Timeline.trimDrag w = None -> Timeline.isScrubbing w = true ->
  let w' := fold_left (fun w e => Timeline.handlePointerMove p e w) es w in
  exists times : list num,
    Forall2
      (fun e t =>
         option_map Timeline.pos_time
           (Timeline.getPosition p w (Timeline.clientX e)) = Some t)
      es times
    /\ Timeline.calls w' = Timeline.calls w ++ map Timeline.onSeek times
    /\ Timeline.trimDrag w' = None
    /\ Timeline.isScrubbing w' = true.
Proof.
  intros Hdur Hc Hd Hs w'.
  destruct (scrub_moves_trace p c es Hdur w Hc Hd Hs)
    as (ts & H1 & H2 & H3 & H4 & _).
  exists ts. auto.
Qed.

Lemma scrub_moves_seek_once_each_witness :
  let w := Timeline.setIsScrubbing true (Samples.idleWorld Samples.axis100) in
  let p := Samples.props (Fin 10) None in
  let e := Samples.mouseAt (Fin 50) None in
  exists times : list num,
    Timeline.calls (Timeline.handlePointerMove p e w)
    = map Timeline.onSeek times
    /\ List.length times = 1%nat.
Proof.
  intros w p e.
  destruct (scrub_moves_seek_once_each p w Samples.axis100 [e]
              eq_refl eq_refl eq_refl eq_refl) as (ts & H1 & H2 & _).
  exists ts. split; [exact H2 |].
  inversion H1 as [| ? ? ? ? _ Hrest]; subst.
  inversion Hrest; subst. reflexivity.
Defined.

(** * The timeline mounted in the session *)

Section StudioSession.

Import App Studio.

Lemma inRange_Fin (t : num) (a b : Q) :
  Spec.inRange t {| start := Fin a; end_ := Fin b |} = true ->
  exists q : Q, t = Fin q /\ a <= q <= b.
Proof.
  unfold Spec.inRange. cbn [start end_].
  destruct t as [q | | |]; simpl; intros H; try discriminate.
  qprop. exists q. split; [reflexivity | lra].
Qed.

Lemma inRange_Fin_intro (a b q : Q) :
  a <= q <= b -> Spec.inRange (Fin q) {| start := Fin a; end_ := Fin b |} = true.
Proof.
  intros [H1 H2]. unfold Spec.inRange. cbn [start end_ le].
  apply andb_true_intro. split; apply Qle_bool_iff; assumption.
Qed.

Lemma clampToRange_Fin (t a b : Q) :
  a <= b ->
  exists cl : Q,
    clampToRange (Fin t) (Some {| start := Fin a; end_ := Fin b |}) = Fin cl
    /\ a <= cl <= b.
Proof.
  intros Hab.
  change (clampToRange (Fin t) (Some {| start := Fin a; end_ := Fin b |}))
    with (Timeline.clamp (Fin t) (Fin a) (Fin b)).
  now apply clamp_Fin_bounds.
Qed.

Lemma valid_range_ordered (D a b : Q) :
  Spec.TimeRange_inv (Fin D) {| start := Fin a; end_ := Fin b |} = true ->
  a <= b.
Proof. intros H. apply TimeRange_inv_Fin in H. lra. Qed.

Lemma handleSeek_sound (D t : Q) (s : Session) :
  sessionSound D s -> sessionSound D (handleSeek (Fin t) s).
Proof.
  intros (Hd & Hct & a & b & el & Hr & Hab & Hel & Hin).
  unfold handleSeek. rewrite Hel, Hr.
  destruct (clampToRange_Fin t a b Hab) as (cl & -> & Hcl).
  unfold sessionSound. simpl. repeat split; auto.
  exists a, b, (el_seek (Fin cl) el). simpl. repeat split; auto.
  now apply inRange_Fin_intro.
Qed.

Lemma updateTrimRange_ordered_sound (D a' b' : Q) (s : Session) :
  sessionSound D s -> a' <= b' ->
  sessionSound D (updateTrimRange {| start := Fin a'; end_ := Fin b' |} s).
Proof.
  intros (Hd & Hct & a & b & el & Hr & _ & Hel & Hin) Hab.
  destruct (inRange_Fin _ _ _ Hin) as (q & Hq & _).
  unfold updateTrimRange. cbn [start end_ le].
  apply Qle_bool_iff in Hab. rewrite Hab. apply Qle_bool_iff in Hab.
  cbn [videoRef setTrimRange]. rewrite Hel, Hq.
  destruct (clampToRange_Fin q a' b' Hab) as (cl & -> & Hcl).
  unfold neq. cbn [JsNum.eq].
  destruct (Qeq_bool cl q) eqn:E; cbn [negb].
  - unfold sessionSound. simpl. repeat split; auto.
    exists a', b', el. repeat split; auto.
    rewrite Hq. apply inRange_Fin_intro. qprop. lra.
  - unfold sessionSound. simpl. repeat split; auto.
    exists a', b', (el_seek (Fin cl) el). simpl. repeat split; auto.
    now apply inRange_Fin_intro.
Qed.

(** A range given with its bounds in the wrong order is stored as the
    range with the bounds exchanged. *)
Lemma updateTrimRange_swapped (a' b' : Q) (s : Session) :
  b' < a' ->
  updateTrimRange {| start := Fin a'; end_ := Fin b' |} s
  = updateTrimRange {| start := Fin b'; end_ := Fin a' |} s.
Proof.
  intros Hlt. unfold updateTrimRange. cbn [start end_ le].
  destruct (Qle_bool a' b') eqn:E1; [qprop; lra |].
  destruct (Qle_bool b' a') eqn:E2; [reflexivity | qprop; lra].
Qed.

Lemma updateTrimRange_sound (D a' b' : Q) (s : Session) :
  sessionSound D s ->
  sessionSound D (updateTrimRange {| start := Fin a'; end_ := Fin b' |} s).
Proof.
  intros Hs. destruct (Qlt_le_dec b' a') as [Hlt | Hle].
  - rewrite (updateTrimRange_swapped _ _ _ Hlt).
    apply updateTrimRange_ordered_sound; auto. lra.
  - now apply updateTrimRange_ordered_sound.
Qed.

Lemma timeupdate_sound (D t : Q) (s : Session) :
  sessionSound D s -> sessionSound D (handleTimeUpdate (played (Fin t) s)).
Proof.
  intros (Hd & Hct & a & b & el & Hr & Hab & Hel & Hin).
  unfold played. rewrite Hel. unfold handleTimeUpdate.
  cbn [videoRef setElement trimRange el_currentTime el_seek]. rewrite Hr.
  cbn [start end_ lt gt].
  destruct (Qle_bool a t) eqn:E1; cbn [negb].
  - destruct (Qle_bool t b) eqn:E2; cbn [negb].
    + unfold sessionSound. simpl. repeat split; auto.
      eexists a, b, _. repeat split; eauto.
      simpl. apply inRange_Fin_intro. qprop. lra.
    + unfold sessionSound. simpl. repeat split; auto.
      eexists a, b, _. repeat split; eauto.
      simpl. apply inRange_Fin_intro. lra.
  - unfold sessionSound. simpl. repeat split; auto.
    eexists a, b, _. repeat split; eauto.
    simpl. apply inRange_Fin_intro. lra.
Qed.

Lemma handlePlayPause_sound (D : Q) (s : Session) :
  sessionSound D s -> sessionSound D (handlePlayPause s).
Proof.
  intros (Hd & Hct & a & b & el & Hr & Hab & Hel & Hin).
  destruct (inRange_Fin _ _ _ Hin) as (q & Hq & Hqin).
  unfold handlePlayPause. rewrite Hel.
  destruct (isPlaying (video s)) eqn:Hplay.
  - unfold sessionSound. simpl. repeat split; auto.
    eexists a, b, _. repeat split; eauto.
  - rewrite Hr. cbn [start end_].
    match goal with
    | |- context [clampToRange ?y _] => set (x := y)
    end.
    assert (Hx : exists qx, x = Fin qx).
    { subst x. destruct (_ && _); [now exists a | now exists q]. }
    destruct Hx as (qx & ->).
    destruct (clampToRange_Fin qx a b Hab) as (cl & -> & Hcl).
    unfold neq. rewrite Hq. cbn [JsNum.eq].
    destruct (Qeq_bool cl q) eqn:E; cbn [negb].
    + unfold sessionSound. simpl. repeat split; auto.
      eexists a, b, _. repeat split; eauto.
      all: simpl; try rewrite Hq; now apply inRange_Fin_intro.
    + unfold sessionSound. simpl. repeat split; auto.
      eexists a, b, _. repeat split; eauto.
      all: simpl; now apply inRange_Fin_intro.
Qed.

Lemma deliver_sound (D : Q) (c : Timeline.Callback) (s : Session) :
  finiteCall c -> sessionSound D s -> sessionSound D (deliver c s).
Proof.
  destruct c as [t | [a b]]; simpl.
  - destruct t as [q | | |]; simpl; try discriminate.
    intros _. apply handleSeek_sound.
  - destruct a as [qa | | |], b as [qb | | |]; simpl;
      intros [Ha Hb]; try discriminate.
    apply updateTrimRange_sound.
Qed.

Lemma deliver_all_sound (D : Q) (cs : list Timeline.Callback) :
  Forall finiteCall cs ->
  forall s : Session,
    sessionSound D s ->
    sessionSound D (fold_left (fun s c => deliver c s) cs s).
Proof.
  induction 1 as [| c cs Hc _ IH]; intros s Hs; simpl; auto.
  apply IH. now apply deliver_sound.
Qed.

End StudioSession.

Section StudioWorld.

Import Timeline Studio.

Lemma getPosition_Fin (p : TimelineProps) (w : World) (cap : list nat)
    (x l W D : Q) :
  duration p = Fin D -> ~ D == 0 -> ~ W == 0 ->
  containerRef w
  = Some {| rect := {| left := Fin l; width := Fin W |}; captured := cap |} ->
  exists t : Q,
    getPosition p w (Fin x)
    = Some {| pos_x := Fin (x - l); pos_time := Fin t |}.
Proof.
  intros HD HD0 HW Hc.
  assert (Hdur : JsNum.eq (duration p) (Fin 0) = false).
  { rewrite HD. simpl. destruct (Qeq_bool D 0) eqn:E; auto. qprop.
    contradiction. }
  pose proof (getPosition_some p w _ (Fin x) Hc Hdur) as Hpos.
  cbn [rect width left sub] in Hpos.
  rewrite (div_Fin _ _ HW), HD in Hpos.
  destruct (unit_clamp_bounds ((x - l) / W)) as (u & Hu & _).
  rewrite Hu in Hpos. cbn [mul] in Hpos. eauto.
Qed.

Lemma clamp_Fin (v lo hi : Q) :
  exists c : Q, clamp (Fin v) (Fin lo) (Fin hi) = Fin c.
Proof.
  destruct (clamp_Fin_spec v lo hi v lo hi) as (c & H & _);
    try reflexivity.
  eauto.
Qed.

(** With finite geometry of non-zero width and a finite duration other
    than zero, a pointer-move of a drag from a finite origin issues one
    range with finite bounds. *)
Lemma drag_update_is_finite
    (D W l x x0 s e : Q) (m : TrimDragMode) (cap : list nat)
    (p : TimelineProps) (ev : PointerEvent) (w : World) :
  duration p = Fin D -> clientX ev = Fin x ->
  containerRef w
  = Some {| rect := {| left := Fin l; width := Fin W |}; captured := cap |} ->
  trimDrag w
  = Some {| mode := m; startX := Fin x0;
            startRange := {| start := Fin s; end_ := Fin e |} |} ->
  ~ W == 0 -> ~ D == 0 ->
  exists s' e' : Q,
    handlePointerMove p ev w
    = call (onTrimRangeChange {| start := Fin s'; end_ := Fin e' |}) w.
Proof.
  intros HD Hx Hc Hd HW HD0.
  assert (Hdur : JsNum.eq (duration p) (Fin 0) = false).
  { rewrite HD. simpl. destruct (Qeq_bool D 0) eqn:E; auto. qprop.
    contradiction. }
  rewrite (handlePointerMove_dragging p ev w _ _ Hc Hd Hdur).
  destruct (getPosition_Fin p w cap x l W D HD HD0 HW Hc) as (t & Ht).
  unfold dragRange. rewrite Hx, Ht.
  cbn [mode startX startRange start end_ rect width pos_time].
  rewrite HD. cbn [sub add]. rewrite (div_Fin _ _ HW). cbn [mul].
  destruct (min_Fin_Qmin 0.5 D 0.5 D) as (ms & -> & _); try reflexivity.
  cbn [sub add].
  destruct m.
  - destruct (max_Fin_Qmax 0 (D - (e - s)) 0 (D - (e - s)))
      as (mx & -> & _); try reflexivity.
    destruct (clamp_Fin (s + (x - x0) / W * D) 0 mx) as (c & ->).
    cbn [add]. eauto.
  - destruct (clamp_Fin t 0 (e - ms)) as (c & ->). eauto.
  - destruct (clamp_Fin t (s + ms) D) as (c & ->). eauto.
Qed.

(** The world keeps its geometry and either keeps or drops its drag
    session. *)
Lemma worldSound_kept (w w' : World) :
  worldSound w ->
  (forall c, containerRef w = Some c ->
     exists cap', containerRef w'
                  = Some {| rect := rect c; captured := cap' |}) ->
  trimDrag w' = trimDrag w \/ trimDrag w' = None ->
  worldSound w'.
Proof.
  intros [(l & W & cap & Hc & HW) Hdrag] Hgeo Hd. split.
  - destruct (Hgeo _ Hc) as [cap' Hc']. exists l, W, cap'. auto.
  - intros d Hd'. destruct Hd as [Hd | Hd]; rewrite Hd in Hd'.
    + now apply Hdrag.
    + discriminate.
Qed.

Lemma scrubTo_good (D : Q) (p : TimelineProps) (w : World) (x : Q) :
  0 < D -> duration p = Fin D -> worldSound w ->
  exists t : Q, scrubTo p (Fin x) w = call (onSeek (Fin t)) w.
Proof.
  intros HD Hp [(l & W & cap & Hc & HW) _].
  destruct (getPosition_Fin p w cap x l W D Hp) as (t & Ht); auto; [lra |].
  exists t. unfold scrubTo. now rewrite Ht.
Qed.

Lemma hover_kept (p : TimelineProps) (e : PointerEvent) (w : World) :
  let w' := match pointerType e with
            | mouse => updateHover p (clientX e) w
            | _ => w
            end in
  calls w' = calls w /\ trimDrag w' = trimDrag w
  /\ isScrubbing w' = isScrubbing w /\ containerRef w' = containerRef w.
Proof.
  destruct (pointerType e); simpl; auto. apply calls_updateHover.
Qed.

Lemma handlePointerDown_sound (D a b : Q) (p : TimelineProps)
    (e : PointerEvent) (w : World) :
  0 < D -> duration p = Fin D ->
  trimRange p = Some {| start := Fin a; end_ := Fin b |} ->
  isFinite (clientX e) = true -> calls w = [] ->
  worldSound w ->
  worldSound (handlePointerDown p e w)
  /\ Forall finiteCall (calls (handlePointerDown p e w)).
Proof.
  intros HD Hp Hr Hx Hcalls Hw.
  destruct (clientX e) as [x | | |] eqn:Ex; try discriminate.
  pose proof Hw as [(l & W & cap & Hc & HW) Hdrag].
  unfold handlePointerDown. rewrite Hc, Hp, Hr, !Ex. cbn [JsNum.eq].
  destruct (Qeq_bool D 0) eqn:E0; [qprop; lra |].
  destruct (isTrimRole (role e)).
  - split.
    + split.
      * exists l, W, (pointerId e :: cap). simpl. rewrite Hc. auto.
      * simpl. intros d Hd. injection Hd as <-. eauto 10.
    + simpl. rewrite Hcalls. constructor.
  - set (w1 := setIsScrubbing true (setPointerCapture (pointerId e) w)).
    assert (Hw1 : worldSound w1).
    { apply (worldSound_kept w); auto.
      intros c Hc'. subst w1. simpl. rewrite Hc'. eauto. }
    destruct (scrubTo_good D p w1 x HD Hp Hw1) as (t & ->).
    set (w2 := call (onSeek (Fin t)) w1).
    destruct (hover_kept p e w2) as (H1 & H2 & H3 & H4).
    rewrite Ex in H1, H2, H3, H4. cbv zeta in *. split.
    + apply (worldSound_kept w1); auto.
      intros c Hc'. rewrite H4. subst w2. simpl in *. rewrite Hc'.
      destruct c. simpl. eauto.
    + rewrite H1. subst w2 w1. simpl. rewrite Hcalls. simpl.
      repeat constructor.
Qed.

Lemma handlePointerMove_sound (D : Q) (p : TimelineProps)
    (e : PointerEvent) (w : World) :
  0 < D -> duration p = Fin D ->
  isFinite (clientX e) = true -> calls w = [] ->
  worldSound w ->
  worldSound (handlePointerMove p e w)
  /\ Forall finiteCall (calls (handlePointerMove p e w)).
Proof.
  intros HD Hp Hx Hcalls Hw.
  destruct (clientX e) as [x | | |] eqn:Ex; try discriminate.
  pose proof Hw as [(l & W & cap & Hc & HW) Hdrag].
  destruct (trimDrag w) as [d |] eqn:Hd.
  - destruct (Hdrag d eq_refl) as (m & x0 & s0 & e0 & ->).
    destruct (drag_update_is_finite D W l x x0 s0 e0 m cap p e w
                Hp Ex Hc Hd HW) as (s' & e' & ->); [lra |].
    split.
    + apply (worldSound_kept w); auto.
      intros c Hc'. simpl. rewrite Hc'. destruct c. simpl. eauto.
    + simpl. rewrite Hcalls. simpl. constructor; [| constructor].
      simpl. auto.
  - unfold handlePointerMove. rewrite Hc, Hp, Hd, !Ex. cbn [JsNum.eq].
    destruct (Qeq_bool D 0) eqn:E0; [qprop; lra |].
    destruct (hover_kept p e w) as (H1 & H2 & H3 & H4). cbv zeta in *.
    rewrite Ex in H1, H2, H3, H4.
    set (w0 := match pointerType e with
               | mouse => updateHover p (Fin x) w
               | _ => w
               end) in *.
    assert (Hw0 : worldSound w0).
    { apply (worldSound_kept w); auto.
      intros c Hc'. rewrite H4, Hc'. destruct c. simpl. eauto. }
    destruct (isScrubbing w0).
    + destruct (scrubTo_good D p w0 x HD Hp Hw0) as (t & ->).
      split.
      * apply (worldSound_kept w0); auto.
        intros c Hc'. simpl. rewrite Hc'. destruct c. simpl. eauto.
      * simpl. rewrite H1, Hcalls. simpl. repeat constructor.
    + split; auto. rewrite H1, Hcalls. constructor.
Qed.

Lemma releaseIfCaptured_kept (id : nat) (w : World) :
  calls (releaseIfCaptured id w) = calls w
  /\ forall c, containerRef w = Some c ->
       exists cap', containerRef (releaseIfCaptured id w)
                    = Some {| rect := rect c; captured := cap' |}.
Proof.
  unfold releaseIfCaptured.
  destruct (containerRef w) as [c |] eqn:Hc.
  - destruct (hasPointerCapture c id).
    + split; auto. intros c' Hc'. injection Hc' as <-.
      simpl. rewrite Hc. eauto.
    + split; auto. intros c' Hc'. rewrite Hc. injection Hc' as <-.
      destruct c. simpl. eauto.
  - split; auto. intros c. discriminate.
Qed.

Lemma terminal_sound (e : PointerEvent) (w : World) :
  calls w = [] -> worldSound w ->
  (worldSound (handlePointerUp e w) /\ calls (handlePointerUp e w) = [])
  /\ (worldSound (handlePointerCancel e w)
      /\ calls (handlePointerCancel e w) = [])
  /\ (worldSound (handlePointerLeave w)
      /\ calls (handlePointerLeave w) = []).
Proof.
  intros Hcalls Hw.
  destruct (releaseIfCaptured_kept (pointerId e) w) as [Hc Hgeo].
  split; [split | split; split].
  - apply (worldSound_kept w); auto.
  - unfold handlePointerUp. simpl. congruence.
  - apply (worldSound_kept w); auto.
  - unfold handlePointerCancel. simpl. congruence.
  - unfold handlePointerLeave. destruct (isScrubbing w); auto.
  - unfold handlePointerLeave. destruct (isScrubbing w); auto.
Qed.

End StudioWorld.

Section StudioRun.

Import Studio.

Lemma dispatch_sound (D : Q) (h : Timeline.TimelineProps -> Timeline.World
                                  -> Timeline.World) (st : Studio) :
  sound D st ->
  (forall p w,
      Timeline.duration p = Fin D ->
      (exists a b,
          Timeline.trimRange p = Some {| start := Fin a; end_ := Fin b |}) ->
      Timeline.calls w = [] -> worldSound w ->
      worldSound (h p w) /\ Forall finiteCall (Timeline.calls (h p w))) ->
  sound D (dispatch h st).
Proof.
  intros (HD & Hs & Hw) Hh.
  pose proof Hs as (Hd & _ & a & b & el & Hr & _).
  destruct (Hh (propsOf st) (clearCalls (world st))) as [Hw' Hcalls]; auto.
  { exists a, b. auto. }
  split; [exact HD |]. split; [| exact Hw'].
  unfold dispatch. cbn [session]. now apply deliver_all_sound.
Qed.

Lemma step_sound (D : Q) (ev : Event) (st : Studio) :
  sound D st -> finiteEvent ev -> sound D (step ev st).
Proof.
  intros Hst Hev. pose proof Hst as (HD & Hs & Hw).
  destruct ev as [e | e | e | e | | t | | | | l W]; simpl in Hev; unfold step.
  - apply dispatch_sound; auto.
    intros p w Hp (a & b & Hr) Hc Hw0.
    now apply (handlePointerDown_sound D a b).
  - apply dispatch_sound; auto.
    intros p w Hp _ Hc Hw0. now apply (handlePointerMove_sound D).
  - apply dispatch_sound; auto.
    intros p w _ _ Hc Hw0.
    destruct (terminal_sound e w Hc Hw0) as [[H1 H2] _].
    rewrite H2. auto.
  - apply dispatch_sound; auto.
    intros p w _ _ Hc Hw0.
    destruct (terminal_sound e w Hc Hw0) as [_ [[H1 H2] _]].
    rewrite H2. auto.
  - apply dispatch_sound; auto.
    intros p w _ _ Hc Hw0.
    destruct (terminal_sound (Samples.mouseAt (Fin 0) None) w Hc Hw0)
      as [_ [_ [H1 H2]]].
    rewrite H2. auto.
  - destruct t as [q | | |]; try discriminate.
    split; [exact HD |]. split; [| exact Hw].
    now apply timeupdate_sound.
  - split; [exact HD |]. split; [| exact Hw].
    now apply handlePlayPause_sound.
  - split; [exact HD |]. split; [| exact Hw].
    cbn [onSession session].
    pose proof Hs as (_ & Hct & _).
    destruct (App.currentTime (App.video (session st))) as [q | | |];
      try discriminate.
    now apply handleSeek_sound.
  - split; [exact HD |]. split; [| exact Hw].
    cbn [onSession session].
    pose proof Hs as (_ & Hct & _).
    destruct (App.currentTime (App.video (session st))) as [q | | |];
      try discriminate.
    now apply handleSeek_sound.
  - destruct Hev as (ql & qW & -> & -> & HW).
    split; [exact HD |]. split; [exact Hs |].
    destruct Hw as [(l0 & W0 & cap & Hc & _) Hdrag]. split.
    + exists ql, qW, cap. cbn. rewrite Hc. auto.
    + exact Hdrag.
Qed.

Lemma run_sound (D : Q) (events : list Event) :
  Forall finiteEvent events ->
  forall st : Studio, sound D st -> sound D (run events st).
Proof.
  unfold run. induction 1 as [| ev events Hev _ IH]; intros st Hst; simpl; auto.
  apply IH. now apply step_sound.
Qed.

(** A loaded studio is sound. *)
Lemma loaded_sound (D : Q) (st : Studio) : loaded D st -> sound D st.
Proof.
  intros (HD & (Hd & Hct & a & b & el & Hr & Hinv & Hel & Hin)
          & (Hgeo & Hdrag)).
  split; [exact HD |]. split.
  - split; [exact Hd |]. split; [exact Hct |].
    exists a, b, el. repeat split; auto.
    exact (valid_range_ordered _ _ _ Hinv).
  - split; [exact Hgeo |].
    intros d Hd'. destruct (Hdrag d Hd') as (m & x0 & a' & b' & -> & _).
    eauto.
Qed.

End StudioRun.

(** X5. The timeline mounted in the session.  From a state with a
    finite positive duration, an axis of finite geometry and non-zero
    width, a finite trim range whose start does not exceed its end and
    the playback position inside it, every sequence of pointer events,
    position reports, play, pause and skip clicks and new layouts that
    carry finite numbers and keep the axis width away from zero leads to
    such a state again: after every handler the session holds a finite
    range with [start <= end], and the playback position lies inside
    that range.  The statement rests on comparisons alone, through the
    normalisation of [updateTrimRange] and the clamps of the session. *)
Theorem studio_keeps_position_inside_trim_range
    (D : Q) (events : list Studio.Event) (st : Studio.Studio) :
  Studio.sound D st ->
  Forall Studio.finiteEvent events ->
  let st' := Studio.run events st in
  Studio.sound D st'
  /\ exists (a b q : Q) (el : App.HTMLVideoElement),
       App.trimRange (Studio.session st')
       = Some {| start := Fin a; end_ := Fin b |}
       /\ a <= b
       /\ App.videoRef (Studio.session st') = Some el
       /\ App.el_currentTime el = Fin q
       /\ a <= q <= b.
Proof.
  intros Hst Hev st'.
  pose proof (run_sound D events Hev st Hst) as Hst'.
  split; [exact Hst' |].
  destruct Hst' as (HD & (_ & _ & a & b & el & Hr & Hab & Hel & Hin) & _).
  destruct (inRange_Fin _ _ _ Hin) as (q & Hq & Hqin).
  exists a, b, q, el. repeat split; auto; lra.
Qed.

Lemma studio_keeps_position_inside_trim_range_witness :
  let st := {| Studio.world := Samples.idleWorld Samples.axis100;
               Studio.session := Samples.playingAt (Fin 3) (Some Samples.r25);
               Studio.thumbs := [] |} in
  let events :=
    [ Studio.pointerdown (Samples.mouseAt (Fin 30) (Some "trim-range"%string));
      Studio.pointermove (Samples.mouseAt (Fin 60) None);
      Studio.timeupdate (Fin 9);
      Studio.relayout (Fin 10) (Fin 200);
      Studio.pointerup (Samples.mouseAt (Fin 60) None);
      Studio.clickSkipForward ] in
  Studio.sound 10 st
  /\ Forall Studio.finiteEvent events
  /\ Studio.sound 10 (Studio.run events st).
Proof.
  intros st events.
  assert (Hst : Studio.sound 10 st).
  { split; [reflexivity |]. split.
    - split; [reflexivity |]. split; [reflexivity |].
      exists 2, 5, {| App.el_currentTime := Fin 3; App.el_paused := false |}.
      repeat split. intros H. discriminate H.
    - split.
      + exists 0, 100, []. split; [reflexivity |]. intros H. discriminate.
      + intros d Hd. discriminate. }
  assert (Hev : Forall Studio.finiteEvent events).
  { repeat (apply Forall_cons || apply Forall_nil);
      try reflexivity; try exact I.
    exists 10, 200. split; [reflexivity |]. split; [reflexivity |].
    intros H. discriminate. }
  split; [exact Hst |]. split; [exact Hev |].
  exact (proj1 (studio_keeps_position_inside_trim_range 10 events st
                  Hst Hev)).
Defined.

(** X6. Loading the metadata of a medium with a finite positive
    duration sets the trim range to the whole medium, which satisfies
    the TimeRange invariant; with the axis mounted at finite geometry of
    non-zero width, no drag in progress and the surface's position
    inside the medium, the studio is then loaded. *)
Theorem metadata_load_selects_whole_medium
    (D l W q : Q) (cap : list nat) (st : Studio.Studio)
    (el : App.HTMLVideoElement) :
  0 < D -> ~ W == 0 ->
  Timeline.containerRef (Studio.world st)
  = Some {| Timeline.rect := {| Timeline.left := Fin l;
                                Timeline.width := Fin W |};
            Timeline.captured := cap |} ->
  Timeline.trimDrag (Studio.world st) = None ->
  App.videoRef (Studio.session st) = Some el ->
  App.el_currentTime el = Fin q -> 0 <= q <= D ->
  isFinite (App.currentTime (App.video (Studio.session st))) = true ->
  let st' := Studio.onSession (App.onLoadedMetadata (Fin D)) st in
  App.trimRange (Studio.session st')
  = Some {| start := Fin 0; end_ := Fin D |}
  /\ Spec.TimeRange_inv (Fin D) {| start := Fin 0; end_ := Fin D |} = true
  /\ Studio.loaded D st'.
Proof.
  intros HD HW Hc Hdrag Hel Hq Hqin Hct st'.
  assert (Hinv : Spec.TimeRange_inv (Fin D) {| start := Fin 0; end_ := Fin D |}
                 = true).
  { apply TimeRange_inv_Fin. repeat split; try lra. }
  split; [reflexivity |]. split; [exact Hinv |].
  split; [exact HD |]. split.
  - subst st'. unfold Studio.sessionLoaded. simpl.
    split; [reflexivity |]. split; [exact Hct |].
    exists 0, D, el. repeat split; auto.
    rewrite Hq. now apply inRange_Fin_intro.
  - split.
    + exists l, W, cap. auto.
    + intros d Hd. simpl in Hd. rewrite Hdrag in Hd. discriminate.
Qed.

Lemma metadata_load_selects_whole_medium_witness :
  let st := {| Studio.world := Samples.idleWorld Samples.axis100;
               Studio.session := Samples.playingAt (Fin 0) None;
               Studio.thumbs := [] |} in
  Studio.loaded 10 (Studio.onSession (App.onLoadedMetadata (Fin 10)) st).
Proof.
  intros st.
  refine (proj2 (proj2 (metadata_load_selects_whole_medium 10 0 100 0 [] st
                          _ eq_refl _ eq_refl eq_refl eq_refl eq_refl _ eq_refl))).
  - intros H. discriminate.
  - split; discriminate.
Defined.

(** * Render projection *)

(** X7. For a finite positive duration, a trim range satisfying the
    TimeRange invariant and a current time inside the medium, the
    rendered trim overlay starts at a percentage of at least 0, ends at
    most at 100, has a positive width equal to end minus start, and is
    part of the rendered tree; the playhead lies between 0 and 100
    percent.  Without a trim range, or with duration zero, no overlay is
    rendered and the playhead of a zero duration sits at 0. *)
Theorem trim_overlay_lies_on_axis
    (D s e ct : Q) (thumbs : list FrameThumbnail) :
  0 < D ->
  Spec.TimeRange_inv (Fin D) {| start := Fin s; end_ := Fin e |} = true ->
  0 <= ct <= D ->
  let p := {| Timeline.duration := Fin D; Timeline.currentTime := Fin ct;
              Timeline.frames := thumbs;
              Timeline.trimRange := Some {| start := Fin s; end_ := Fin e |} |} in
  (exists a b wd ph : Q,
      Render.trimStart p = Fin a /\ Render.trimEnd p = Fin b
      /\ Render.trimWidth p = Fin wd /\ Render.playheadPosition p = Fin ph
      /\ 0 <= a /\ a < b /\ b <= 100 /\ wd == b - a /\ 0 <= ph <= 100
      /\ Render.trimOverlayRendered p = true)
  /\ (forall q : Timeline.TimelineProps,
        Timeline.trimRange q = None \/ Timeline.duration q = Fin 0 ->
        Render.trimOverlayRendered q = false
        /\ Render.trimWidth q = Fin 0
        /\ (Timeline.duration q = Fin 0 -> Render.playheadPosition q = Fin 0)).
Proof.
  intros HD Hinv Hct p. split.
  - apply TimeRange_inv_Fin in Hinv. destruct Hinv as (H0 & H1 & H2 & H3).
    assert (HD0 : ~ D == 0) by lra.
    assert (Hgt : gt (Fin D) (Fin 0) = true) by (apply lt_Fin; exact HD).
    assert (Hshow : Render.showTrim p = true) by exact Hgt.
    assert (Hs : s / D * D == s) by (field; exact HD0).
    assert (He : e / D * D == e) by (field; exact HD0).
    assert (Hc : ct / D * D == ct) by (field; exact HD0).
    assert (Hlt : s < e) by lra.
    exists (s / D * 100), (e / D * 100), (e / D * 100 - s / D * 100),
      (ct / D * 100).
    assert (Hstart : Render.trimStart p = Fin (s / D * 100)).
    { unfold Render.trimStart. rewrite Hshow. subst p.
      cbn [Timeline.trimRange Timeline.duration start].
      now rewrite (div_Fin _ _ HD0). }
    assert (Hend : Render.trimEnd p = Fin (e / D * 100)).
    { unfold Render.trimEnd. rewrite Hshow. subst p.
      cbn [Timeline.trimRange Timeline.duration end_].
      now rewrite (div_Fin _ _ HD0). }
    assert (Hpos : 0 <= e / D * 100 - s / D * 100) by nra.
    assert (Hwidth : Render.trimWidth p
                     = Fin (e / D * 100 - s / D * 100)).
    { unfold Render.trimWidth. rewrite Hstart, Hend. cbn [sub].
      unfold JsNum.max. cbn [le].
      apply Qle_bool_iff in Hpos. now rewrite Hpos. }
    split; [exact Hstart |]. split; [exact Hend |]. split; [exact Hwidth |].
    split.
    { unfold Render.playheadPosition. subst p.
      cbn [Timeline.duration Timeline.currentTime]. rewrite Hgt.
      now rewrite (div_Fin _ _ HD0). }
    split; [nra |]. split; [nra |]. split; [nra |].
    split; [reflexivity |]. split; [nra |].
    unfold Render.trimOverlayRendered. rewrite Hshow, Hwidth.
    apply lt_Fin. nra.
  - intros q Hq.
    assert (Hshow : Render.showTrim q = false).
    { unfold Render.showTrim. destruct Hq as [-> | ->]; auto.
      now destruct (Timeline.trimRange q). }
    unfold Render.trimOverlayRendered, Render.trimWidth, Render.trimStart,
      Render.trimEnd, Render.playheadPosition.
    rewrite Hshow. repeat split; auto.
    intros ->. reflexivity.
Qed.

Lemma trim_overlay_lies_on_axis_witness :
  exists a b wd ph : Q,
    Render.trimStart (Samples.props (Fin 10) (Some Samples.r25)) = Fin a
    /\ Render.trimEnd (Samples.props (Fin 10) (Some Samples.r25)) = Fin b
    /\ Render.trimWidth (Samples.props (Fin 10) (Some Samples.r25)) = Fin wd
    /\ Render.playheadPosition (Samples.props (Fin 10) (Some Samples.r25))
       = Fin ph
    /\ 0 <= a /\ a < b /\ b <= 100.
Proof.
  destruct (proj1 (trim_overlay_lies_on_axis 10 2 5 0 [] eq_refl eq_refl
                     (conj (Qle_refl 0) (Qlt_le_weak 0 10 eq_refl))))
    as (a & b & wd & ph & H1 & H2 & H3 & H4 & H5 & H6 & H7 & _).
  exists a, b, wd, ph. repeat split; assumption.
Defined.

(** * Export *)

Section ExportFacts.

Lemma max_Fin (a b : Q) :
  JsNum.max (Fin a) (Fin b) = if Qle_bool a b then Fin b else Fin a.
Proof. reflexivity. Qed.

Lemma min_Fin (a b : Q) :
  JsNum.min (Fin a) (Fin b) = if Qle_bool a b then Fin a else Fin b.
Proof. reflexivity. Qed.

Variable encode : num -> num -> result string.

(** The outcome of an export of the finite interval between [lo] and
    [hi], given in either order. *)
Lemma handleExport_ordered (file : string) (lo hi : Q)
    (loadError : option string) (r : TimeRange) :
  lo <= hi ->
  r = {| start := Fin lo; end_ := Fin hi |}
  \/ r = {| start := Fin hi; end_ := Fin lo |} ->
  let out := Exporter.handleExport encode (Some file) (Some r) loadError in
  let ss := if Qle_bool 0 lo then lo else 0 in
  ((hi <= 0 \/ lo == hi) -> out = Exporter.NotStarted)
  /\ (0 < hi -> lo < hi ->
      out
      = match loadError with
        | Some _ => Exporter.Alerted "Export failed. Please try again."
        | None =>
            match encode (Fin ss) (Fin (hi - ss)) with
            | Ok blob => Exporter.Downloaded blob
            | Throw _ => Exporter.Alerted "Export failed. Please try again."
            end
        end).
Proof.
  intros Hle Hr out ss. subst out ss.
  unfold Exporter.handleExport, Exporter.trimVideo, bind.
  destruct Hr as [-> | ->]; cbn [start end_]; split; intros;
    destruct loadError;
    repeat (rewrite ?max_Fin, ?min_Fin; cbn [le sub isFinite negb orb];
            try match goal with
                | |- context [Qle_bool ?a ?b] =>
                    let E := fresh "E" in destruct (Qle_bool a b) eqn:E
                end);
    qprop; try reflexivity;
    try match goal with
        | |- context [encode ?a ?b] => destruct (encode a b); reflexivity
        end;
    exfalso;
    try match goal with H : _ \/ _ |- _ => destruct H end; lra.
Qed.

End ExportFacts.

(** X8. Export of a finite trim range, given as [lo <= hi] in either
    order: nothing is started (the encoder is not run) when the range is
    empty or ends at or before 0; otherwise the encoder runs exactly
    once, from [max(0, lo)] for the positive length [hi - max(0, lo)],
    and the outcome is the download of its blob, or the failure alert if
    loading the backend or the run throws.  The alert for an empty range
    is never shown, an export without a file or without a range does
    nothing, and an enabled export button on a range starting at or
    after 0 always reaches the encoder. *)
Theorem export_encodes_the_selected_interval
    (encode : num -> num -> result string) (file : string) (lo hi : Q)
    (loadError : option string) (r : TimeRange) :
  lo <= hi ->
  r = {| start := Fin lo; end_ := Fin hi |}
  \/ r = {| start := Fin hi; end_ := Fin lo |} ->
  let out := Exporter.handleExport encode (Some file) (Some r) loadError in
  let ss := if Qle_bool 0 lo then lo else 0 in
  0 <= ss /\ lo <= ss
  /\ ((hi <= 0 \/ lo == hi) -> out = Exporter.NotStarted)
  /\ (0 < hi -> lo < hi ->
      0 < hi - ss
      /\ out
         = match loadError with
           | Some _ => Exporter.Alerted "Export failed. Please try again."
           | None =>
               match encode (Fin ss) (Fin (hi - ss)) with
               | Ok blob => Exporter.Downloaded blob
               | Throw _ =>
                   Exporter.Alerted "Export failed. Please try again."
               end
           end)
  /\ out <> Exporter.Alerted "Trim range is empty."
  /\ (Exporter.canExport (Some file) (Some r) false = true -> 0 <= lo ->
      out <> Exporter.NotStarted)
  /\ (forall range : option TimeRange,
        Exporter.handleExport encode None range loadError
        = Exporter.NotStarted)
  /\ Exporter.handleExport encode (Some file) None loadError
     = Exporter.NotStarted.
Proof.
  intros Hle Hr out ss.
  destruct (handleExport_ordered encode file lo hi loadError r Hle Hr)
    as [Hskip Hrun]. fold out in Hskip, Hrun. fold ss in Hrun.
  assert (Hss : 0 <= ss /\ lo <= ss /\ (0 < hi -> lo < hi -> 0 < hi - ss)).
  { subst ss. destruct (Qle_bool 0 lo) eqn:E; qprop; repeat split; lra. }
  destruct Hss as (Hss0 & Hss1 & Hss2).
  assert (Hnot : 0 < hi -> lo < hi ->
                 out <> Exporter.Alerted "Trim range is empty."
                 /\ out <> Exporter.NotStarted).
  { intros H1 H2. rewrite (Hrun H1 H2).
    destruct loadError; [split; discriminate |].
    destruct (encode (Fin ss) (Fin (hi - ss))); split; discriminate. }
  split; [exact Hss0 |]. split; [exact Hss1 |]. split; [exact Hskip |].
  split; [intros H1 H2; split; auto |].
  split; [| split; [| split]].
  - destruct (Qlt_le_dec 0 hi) as [H1 | H1];
      [destruct (Qlt_le_dec lo hi) as [H2 | H2] |].
    + now apply Hnot.
    + rewrite Hskip; [discriminate | right; lra].
    + rewrite Hskip; [discriminate | now left].
  - intros Hcan H0.
    assert (Hlt : lo < hi).
    { destruct Hr as [-> | ->]; unfold Exporter.canExport in Hcan;
        cbn [start end_] in Hcan; apply andb_prop in Hcan as [Hcan _];
        apply lt_Fin in Hcan; lra. }
    apply Hnot; lra.
  - intros range. now destruct range.
  - reflexivity.
Qed.

Lemma export_encodes_the_selected_interval_witness :
  let encode := fun (_ _ : num) => Ok "blob:trimmed"%string in
  2 <= 5
  /\ Exporter.handleExport encode (Some "clip.mp4"%string) (Some Samples.r25)
       None
     = Exporter.Downloaded "blob:trimmed"%string.
Proof.
  intros encode. split; [discriminate |].
  destruct (export_encodes_the_selected_interval encode "clip.mp4"%string
              2 5 None Samples.r25)
    as (_ & _ & _ & Hrun & _).
  - discriminate.
  - left. reflexivity.
  - exact (proj2 (Hrun eq_refl eq_refl)).
Defined.

(** * Progress reporting *)

Section ProgressFacts.

Import Progress.

Lemma clamp01_Fin (p : num) :
  isNaN p = false ->
  exists c : Q,
    JsNum.min (Fin 1) (JsNum.max (Fin 0) p) = Fin c /\ 0 <= c <= 1
    /\ (forall q, p = Fin q -> q == 1 -> c == 1).
Proof.
  destruct p as [q | | |]; intros H; try discriminate.
  - rewrite max_Fin. destruct (Qle_bool 0 q) eqn:E0; rewrite min_Fin.
    + destruct (Qle_bool 1 q) eqn:E1; eexists; (split; [reflexivity |]);
        qprop; (split; [lra |]); intros q' Hq Hq1; injection Hq as <-; lra.
    + destruct (Qle_bool 1 0) eqn:E1; eexists; (split; [reflexivity |]);
        qprop; (split; [lra |]); intros q' Hq Hq1; injection Hq as <-; lra.
  - exists 1. repeat split; try lra; discriminate.
  - exists 0. repeat split; try lra; discriminate.
Qed.

Lemma ascending_snoc (l : list num) (x : num) :
  Spec.ascending l -> Forall (fun y => le y x = true) l ->
  Spec.ascending (l ++ [x]).
Proof.
  unfold Spec.ascending. induction 1 as [| y l Hl IH Hy]; intros Hx; simpl.
  - repeat constructor.
  - inversion Hx as [| ? ? Hyx Hlx]; subst. constructor.
    + now apply IH.
    + apply Forall_app. split; auto.
Qed.

Lemma reportProgress_steady (p : num) (st : Reporter) :
  isNaN p = false -> steady st -> steady (reportProgress p st).
Proof.
  intros Hp (lp & Hlp & Hlp01 & Hall & Hasc).
  destruct (clamp01_Fin p Hp) as (c & Hc & Hc01 & _).
  unfold reportProgress. rewrite Hc, Hlp. cbn [lt].
  destruct (Qle_bool lp c) eqn:E; cbn [negb].
  - qprop. exists c. cbn [lastProgress reported]. repeat split; try lra.
    + apply Forall_app. split.
      * eapply Forall_impl; [| exact Hall]. intros v (q & -> & Hq).
        exists q. split; [reflexivity | lra].
      * constructor; [| constructor]. exists c. split; [reflexivity | lra].
    + apply ascending_snoc; auto.
      eapply Forall_impl; [| exact Hall]. intros v (q & -> & Hq).
      apply le_Fin. lra.
  - exists lp. auto.
Qed.

Lemma reportProgress_last (p : num) (st : Reporter) (q : Q) :
  p = Fin q -> q == 1 -> steady st ->
  exists front lastv,
    reported (reportProgress p st) = front ++ [lastv] /\ equiv lastv (Fin 1).
Proof.
  intros Hp Hq (lp & Hlp & Hlp01 & _).
  assert (Hnan : isNaN p = false) by (now rewrite Hp).
  destruct (clamp01_Fin p Hnan) as (c & Hc & Hc01 & Hone).
  specialize (Hone q Hp Hq).
  unfold reportProgress. rewrite Hc, Hlp. cbn [lt].
  destruct (Qle_bool lp c) eqn:E; cbn [negb]; [| qprop; lra].
  exists (reported st), (Fin c). split; [reflexivity | exact Hone].
Qed.

Lemma execRatio_Fin (d : Q) (progress time : num) :
  0 < d ->
  exists r : Q, execRatio (Fin d) progress time = Fin r /\ 0 <= r <= 1.
Proof.
  intros Hd. unfold execRatio.
  assert (Hgt : gt (Fin d) (Fin 0) = true) by (now apply lt_Fin).
  rewrite Hgt, andb_true_r.
  assert (Hp : exists a, (if isFinite progress then progress else Fin 0)
                         = Fin a).
  { destruct progress; simpl; eauto. }
  destruct Hp as (a & ->).
  assert (Ht : exists b,
             (if isFinite time
              then JsNum.min (Fin 1)
                     (div time (mul (Fin d) (Fin 1000000)))
              else Fin 0) = Fin b).
  { destruct time as [t | | |]; cbn [isFinite]; eauto.
    cbn [mul]. rewrite div_Fin by nra. rewrite min_Fin.
    destruct (Qle_bool 1 (t / (d * 1000000))); eauto. }
  destruct Ht as (b & ->).
  rewrite max_Fin.
  destruct (Qle_bool a b); apply unit_clamp_bounds.
Qed.

Lemma execProgress_steady (d : Q) (k : Z) (i : nat) (ev : num * num)
    (st : Reporter) :
  0 < d -> (0 < k)%Z -> steady st ->
  steady (execProgress (Fin d) (Fin (inject_Z k)) i ev st).
Proof.
  intros Hd Hk Hst. unfold execProgress.
  destruct (execRatio_Fin d (fst ev) (snd ev) Hd) as (r & -> & _).
  apply reportProgress_steady; auto.
  unfold FrameExtract.ofNat. cbn [add]. rewrite div_Fin; [reflexivity |].
  intros H. assert (0 < inject_Z k); [| lra].
  change 0 with (inject_Z 0). rewrite <- Zlt_Qlt. lia.
Qed.

Lemma framePass_steady (d : Q) (k : Z) (i : nat) (events : list (num * num)) :
  0 < d -> (0 < k)%Z ->
  forall st : Reporter,
    steady st -> steady (framePass (Fin d) (Fin (inject_Z k)) i events st).
Proof.
  intros Hd Hk st Hst. unfold framePass.
  assert (Hk0 : ~ inject_Z k == 0).
  { intros H. assert (0 < inject_Z k); [| lra].
    change 0 with (inject_Z 0). rewrite <- Zlt_Qlt. lia. }
  apply reportProgress_steady.
  - unfold FrameExtract.ofNat. cbn [add]. now rewrite div_Fin.
  - revert st Hst. induction events as [| ev events IH]; intros st Hst; simpl.
    + exact Hst.
    + apply IH. now apply execProgress_steady.
Qed.

Lemma passesFrom_steady (d : Q) (k : Z) (passes : list (list (num * num))) :
  0 < d -> (0 < k)%Z ->
  forall (i : nat) (st : Reporter),
    steady st -> steady (passesFrom (Fin d) (Fin (inject_Z k)) i passes st).
Proof.
  intros Hd Hk. induction passes as [| events rest IH]; intros i st Hst; simpl.
  - exact Hst.
  - apply IH. now apply framePass_steady.
Qed.

Lemma passesFrom_snoc (sd tf : num) (passes : list (list (num * num)))
    (events : list (num * num)) :
  forall (i : nat) (st : Reporter),
    passesFrom sd tf i (passes ++ [events]) st
    = framePass sd tf (i + List.length passes) events
        (passesFrom sd tf i passes st).
Proof.
  induction passes as [| evs rest IH]; intros i st; simpl.
  - now rewrite Nat.add_0_r.
  - rewrite IH. now rewrite Nat.add_succ_r.
Qed.

Lemma fresh_steady : steady (reportProgress (Fin 0) fresh).
Proof.
  exists 0. cbn. repeat split; try lra.
  - repeat constructor. exists 0. split; [reflexivity | lra].
  - repeat constructor.
Qed.

End ProgressFacts.

Section ProgressRuns.

Import Progress.

Lemma fold_report_steady (inputs : list num) :
  Forall (fun p => isNaN p = false) inputs ->
  forall st : Reporter,
    steady st -> steady (fold_left (fun st p => reportProgress p st) inputs st).
Proof.
  induction 1 as [| p inputs Hp _ IH]; intros st Hst; simpl; auto.
  apply IH. now apply reportProgress_steady.
Qed.

Lemma fold_report_length (inputs : list num) :
  forall st : Reporter,
    (List.length
       (reported (fold_left (fun st p => reportProgress p st) inputs st))
     <= List.length (reported st) + List.length inputs)%nat.
Proof.
  induction inputs as [| p inputs IH]; intros st; simpl; [lia |].
  etransitivity; [apply IH |].
  unfold reportProgress. destruct (lt _ _); simpl; [lia |].
  rewrite length_app. simpl. lia.
Qed.

Lemma steady_bounds (st : Reporter) :
  steady st ->
  Spec.ascending (reported st)
  /\ Forall (fun v => le (Fin 0) v = true /\ le v (Fin 1) = true) (reported st).
Proof.
  intros (lp & _ & Hlp & Hall & Hasc). split; auto.
  eapply Forall_impl; [| exact Hall]. intros v (q & -> & Hq).
  split; apply le_Fin; lra.
Qed.

(** The reports of [st'] continue those of [st]. *)
Lemma reportProgress_extends (p : num) (st : Reporter) :
  exists more, reported (reportProgress p st) = reported st ++ more.
Proof.
  unfold reportProgress. destruct (lt _ _); simpl.
  - exists []. now rewrite app_nil_r.
  - eauto.
Qed.

Lemma framePass_extends (sd tf : num) (i : nat) (events : list (num * num)) :
  forall st : Reporter,
    exists more, reported (framePass sd tf i events st) = reported st ++ more.
Proof.
  intros st. unfold framePass.
  assert (H : forall st0,
             exists more,
               reported (fold_left (fun st ev => execProgress sd tf i ev st)
                           events st0) = reported st0 ++ more).
  { induction events as [| ev events IH]; intros st0; simpl.
    - exists []. now rewrite app_nil_r.
    - destruct (IH (execProgress sd tf i ev st0)) as [m1 ->].
      unfold execProgress.
      destruct (reportProgress_extends
                  (div (add (FrameExtract.ofNat i)
                          (execRatio sd (fst ev) (snd ev))) tf) st0)
        as [m0 ->].
      exists (m0 ++ m1). now rewrite app_assoc. }
  destruct (H st) as [m0 H0].
  destruct (reportProgress_extends
              (div (add (FrameExtract.ofNat i) (Fin 1)) tf)
              (fold_left (fun st ev => execProgress sd tf i ev st) events st))
    as [m1 ->].
  rewrite H0. exists (m0 ++ m1). now rewrite app_assoc.
Qed.

Lemma passesFrom_extends (sd tf : num) (passes : list (list (num * num))) :
  forall (i : nat) (st : Reporter),
    exists more, reported (passesFrom sd tf i passes st) = reported st ++ more.
Proof.
  induction passes as [| events rest IH]; intros i st; simpl.
  - exists []. now rewrite app_nil_r.
  - destruct (IH (S i) (framePass sd tf i events st)) as [m1 ->].
    destruct (framePass_extends sd tf i events st) as [m0 ->].
    exists (m0 ++ m1). now rewrite app_assoc.
Qed.

Lemma fold_exec_steady (d : Q) (k : Z) (i : nat) (events : list (num * num)) :
  0 < d -> (0 < k)%Z ->
  forall st : Reporter,
    steady st ->
    steady (fold_left
              (fun st ev => execProgress (Fin d) (Fin (inject_Z k)) i ev st)
              events st).
Proof.
  intros Hd Hk. induction events as [| ev evs IH]; intros st Hst; simpl; auto.
  apply IH. now apply execProgress_steady.
Qed.

End ProgressRuns.

(** X9. Whatever numbers are passed to [reportProgress] (NaN apart), the
    values handed on to [onProgress] form an ascending sequence of
    fractions between 0 and 1, with at most one value per call. *)
Theorem reported_progress_never_goes_back (inputs : list num) :
  Forall (fun p => isNaN p = false) inputs ->
  let st := fold_left (fun st p => Progress.reportProgress p st) inputs
              Progress.fresh in
  Spec.ascending (Progress.reported st)
  /\ Forall (fun v => le (Fin 0) v = true /\ le v (Fin 1) = true)
       (Progress.reported st)
  /\ (List.length (Progress.reported st) <= List.length inputs)%nat.
Proof.
  intros Hin st.
  assert (Hfresh : Progress.steady Progress.fresh).
  { exists 0. cbn. repeat split; try lra; constructor. }
  destruct (steady_bounds st (fold_report_steady inputs Hin _ Hfresh))
    as [Hasc Hall].
  split; [exact Hasc |]. split; [exact Hall |].
  apply (fold_report_length inputs Progress.fresh).
Qed.

Lemma reported_progress_never_goes_back_witness :
  let inputs := [Fin 0.5; Fin 0.25; PInf; NInf] in
  Forall (fun p => isNaN p = false) inputs
  /\ Spec.ascending
       (Progress.reported
          (fold_left (fun st p => Progress.reportProgress p st) inputs
             Progress.fresh)).
Proof.
  intros inputs.
  assert (H : Forall (fun p => isNaN p = false) inputs).
  { repeat constructor. }
  split; [exact H |].
  exact (proj1 (reported_progress_never_goes_back inputs H)).
Defined.

(** X10. During an extraction over a finite positive duration that
    grabs every frame, whatever progress events the encoder raises
    (also with NaN, infinite or negative fields), the caller's
    [onProgress] receives an ascending sequence of fractions between 0
    and 1 that begins with 0 and ends with 1. *)
Theorem extraction_progress_runs_from_0_to_1
    (d : Q) (passes : list (list (num * num))) :
  0 < d ->
  List.length passes
  = FrameExtract.passes (FrameExtract.totalFramesOf (Fin d)) ->
  let out := Progress.reported (Progress.extraction (Fin d) passes) in
  Spec.ascending out
  /\ Forall (fun v => le (Fin 0) v = true /\ le v (Fin 1) = true) out
  /\ (exists rest, out = Fin 0 :: rest)
  /\ (exists front lastv, out = front ++ [lastv] /\ equiv lastv (Fin 1)).
Proof.
  intros Hd Hlen out. subst out. unfold Progress.extraction.
  destruct (totalFrames_Fin d) as (k & Hk & Hrange).
  rewrite Hk in *. unfold FrameExtract.passes in Hlen.
  rewrite Qceiling_Z in Hlen.
  assert (Hk0 : (0 < k)%Z) by lia.
  pose proof (passesFrom_steady d k passes Hd Hk0 0%nat _ fresh_steady)
    as Hst.
  destruct (steady_bounds _ Hst) as [Hasc Hall].
  split; [exact Hasc |]. split; [exact Hall |]. split.
  - destruct (passesFrom_extends (Fin d) (Fin (inject_Z k)) passes 0%nat
                (Progress.reportProgress (Fin 0) Progress.fresh))
      as [more ->].
    exists more. reflexivity.
  - destruct (exists_last (l := passes)) as (front & events & ->).
    { intros ->. simpl in Hlen. lia. }
    rewrite passesFrom_snoc.
    unfold Progress.framePass. cbn [Nat.add].
    rewrite length_app in Hlen. simpl in Hlen.
    eapply reportProgress_last.
    + unfold FrameExtract.ofNat. cbn [add]. apply div_Fin.
      intros H. assert (0 < inject_Z k); [| lra].
      change 0 with (inject_Z 0). rewrite <- Zlt_Qlt. lia.
    + assert (Hi : inject_Z (Z.of_nat (List.length front)) + 1 == inject_Z k).
      { replace k with (Z.of_nat (List.length front) + 1)%Z by lia.
        rewrite inject_Z_plus. reflexivity. }
      rewrite Hi. field.
      intros H. assert (0 < inject_Z k); [| lra].
      change 0 with (inject_Z 0). rewrite <- Zlt_Qlt. lia.
    + apply fold_exec_steady; auto.
      apply passesFrom_steady; auto. apply fresh_steady.
Qed.

Lemma extraction_progress_runs_from_0_to_1_witness :
  let passes := repeat [(NaN, PInf); (Fin 0.5, Fin 0)] 10 in
  0 < 4
  /\ List.length passes
     = FrameExtract.passes (FrameExtract.totalFramesOf (Fin 4))
  /\ Spec.ascending (Progress.reported (Progress.extraction (Fin 4) passes)).
Proof.
  intros passes. split; [reflexivity |]. split; [reflexivity |].
  exact (proj1 (extraction_progress_runs_from_0_to_1 4 passes
                  eq_refl eq_refl)).
Defined.

(** * Frame selection for the analysis *)

Section AnalysisFacts.

Import Analysis.

Lemma at_index_nat (frames : list string) (i : nat) :
  at_index frames (Z.of_nat i) = nth_error frames i.
Proof.
  unfold at_index. destruct (Z.of_nat i <? 0)%Z eqn:E.
  - apply Z.ltb_lt in E. lia.
  - now rewrite Nat2Z.id.
Qed.

Lemma sampleIndices_nat (frames : list string) :
  frames <> [] ->
  sampleIndices frames
  = [ Z.of_nat 0; Z.of_nat (List.length frames / 2);
      Z.of_nat (List.length frames - 1) ].
Proof.
  intros Hne. unfold sampleIndices.
  assert (Hlen : (1 <= List.length frames)%nat).
  { destruct frames; [congruence | simpl; lia]. }
  rewrite (Nat2Z.inj_div _ 2), Nat2Z.inj_sub by lia. reflexivity.
Qed.

End AnalysisFacts.

(** X11. For a non-empty list of frame URLs, none of them the empty
    string, the analysis fetches exactly three: the first, the one in
    the middle (index [floor(n / 2)]) and the last, in that order, with
    repeats when there are fewer than three frames.  For no frames it
    fetches nothing. *)
Theorem analysis_fetches_first_middle_last (frames : list string) :
  frames <> [] ->
  Forall (fun u => u <> EmptyString) frames ->
  (exists a b c : string,
      Analysis.fetchedUrls frames = [a; b; c]
      /\ nth_error frames 0 = Some a
      /\ nth_error frames (List.length frames / 2) = Some b
      /\ nth_error frames (List.length frames - 1) = Some c)
  /\ Analysis.fetchedUrls [] = [].
Proof.
  intros Hne Hall. split; [| reflexivity].
  assert (Hlen : (1 <= List.length frames)%nat).
  { destruct frames; [congruence | simpl; lia]. }
  assert (Hget : forall i, (i < List.length frames)%nat ->
                 exists u, nth_error frames i = Some u
                           /\ String.eqb u EmptyString = false).
  { intros i Hi. destruct (nth_error frames i) as [u |] eqn:E.
    - exists u. split; auto. apply String.eqb_neq.
      apply (proj1 (Forall_forall _ frames) Hall u).
      eapply nth_error_In; eauto.
    - apply nth_error_None in E. lia. }
  destruct (Hget 0%nat) as (a & Ha & Ha'); [lia |].
  destruct (Hget (List.length frames / 2)%nat) as (b & Hb & Hb').
  { apply Nat.div_lt; lia. }
  destruct (Hget (List.length frames - 1)%nat) as (c & Hc & Hc'); [lia |].
  exists a, b, c. repeat split; auto.
  unfold Analysis.fetchedUrls. rewrite (sampleIndices_nat frames Hne).
  cbn [flat_map]. rewrite !at_index_nat, Ha, Hb, Hc, Ha', Hb', Hc'.
  reflexivity.
Qed.

Lemma analysis_fetches_first_middle_last_witness :
  Analysis.fetchedUrls ["blob:a"; "blob:b"]%string
  = ["blob:a"; "blob:b"; "blob:b"]%string.
Proof.
  destruct (proj1 (analysis_fetches_first_middle_last
                     ["blob:a"; "blob:b"]%string
                     ltac:(discriminate)
                     ltac:(repeat constructor; discriminate)))
    as (a & b & c & -> & Ha & Hb & Hc).
  simpl in Ha, Hb, Hc. congruence.
Defined.

(** * Play and pause *)



(** * The sampling schedule in detail *)

Section ScheduleDetail.

Import FrameExtract.

Lemma inject_Z_pos (k : Z) : (0 < k)%Z -> 0 < inject_Z k.
Proof. intros H. change 0 with (inject_Z 0). rewrite <- Zlt_Qlt. lia. Qed.

Lemma totalFrames_tight (d : Q) :
  exists k : Z,
    totalFramesOf (Fin d) = Fin (inject_Z k)
    /\ (10 <= k <= 30)%Z
    /\ (k = 10%Z \/ inject_Z k <= d * 1.5)
    /\ k = Z.min 30 (Z.max 10 (Qfloor (d * 1.5))).
Proof.
  unfold totalFramesOf. cbn [mul floor].
  set (f := Qfloor (d * 1.5)).
  assert (Hf : inject_Z f <= d * 1.5) by apply Qfloor_le.
  unfold JsNum.max. cbn [le].
  destruct (Qle_bool 10 (inject_Z f)) eqn:E10.
  - unfold JsNum.min. cbn [le]. qprop.
    change 10 with (inject_Z 10) in E10. rewrite <- Zle_Qle in E10.
    destruct (Qle_bool 30 (inject_Z f)) eqn:E30; qprop.
    + change 30 with (inject_Z 30) in E30. rewrite <- Zle_Qle in E30.
      exists 30%Z. split; [reflexivity |]. split; [lia |]. split; [| lia].
      right. assert (inject_Z 30 <= inject_Z f) by (rewrite <- Zle_Qle; lia).
      lra.
    + change 30 with (inject_Z 30) in E30. rewrite <- Zlt_Qlt in E30.
      exists f. split; [reflexivity |]. split; [lia |]. split; [| lia].
      now right.
  - qprop. change 10 with (inject_Z 10) in E10. rewrite <- Zlt_Qlt in E10.
    exists 10%Z. split; [reflexivity |]. split; [lia |]. split; [| lia].
    now left.
Qed.

Lemma timestampAt_even (d : Q) (k : Z) (i : nat) :
  0.1 <= d ->
  totalFramesOf (Fin d) = Fin (inject_Z k) ->
  (10 <= k <= 30)%Z -> (k = 10%Z \/ inject_Z k <= d * 1.5) ->
  (Z.of_nat i < k)%Z ->
  exists ts : Q,
    timestampAt (Fin d) i = Fin ts
    /\ ts == inject_Z (Z.of_nat i) * (d / inject_Z k).
Proof.
  intros Hd Hk Hrange Htight Hi. unfold timestampAt. rewrite Hk.
  assert (Hk0 : 0 < inject_Z k) by (apply inject_Z_pos; lia).
  rewrite div_Fin by lra. cbn [sub]. rewrite max_Fin.
  destruct (Qle_bool 0 (d - 0.01)) eqn:E0; [| qprop; lra].
  unfold ofNat. cbn [mul]. rewrite min_Fin.
  set (step := d / inject_Z k).
  set (xi := inject_Z (Z.of_nat i) * step).
  assert (Hstep : step * inject_Z k == d) by (unfold step; field; lra).
  assert (Hk10 : 10 <= inject_Z k).
  { change 10 with (inject_Z 10). rewrite <- Zle_Qle. lia. }
  assert (Hstep01 : 0.01 <= step).
  { destruct Htight as [-> | Ht].
    - change (inject_Z 10) with 10 in Hstep. lra.
    - nra. }
  assert (Hile : inject_Z (Z.of_nat i) <= inject_Z k - 1).
  { assert (H : inject_Z (Z.of_nat i) + 1 <= inject_Z k).
    { change 1 with (inject_Z 1). rewrite <- inject_Z_plus, <- Zle_Qle. lia. }
    lra. }
  assert (Hxi : xi <= d - 0.01) by (unfold xi; nra).
  destruct (Qle_bool (d - 0.01) xi) eqn:E1; qprop.
  - exists (d - 0.01). split; [reflexivity |]. fold step. fold xi. lra.
  - exists xi. split; reflexivity.
Qed.

Lemma extract_timestamps (grab : nat -> num -> result string) (d : Q)
    (frames : list FrameThumbnail) :
  0 < d ->
  extractFramesWithVideo grab (Fin d) = Ok frames ->
  map timestamp frames
  = map (timestampAt (Fin d))
      (seq 0 (Z.to_nat (Z.min 30 (Z.max 10 (Qfloor (d * 1.5)))))).
Proof.
  intros Hd H. unfold extractFramesWithVideo in H.
  destruct (safeDuration_positive d Hd) as [Hsafe Htruthy].
  rewrite Hsafe, Htruthy in H. cbn [negb] in H.
  apply sampleLoop_timestamps in H. simpl in H. rewrite H.
  destruct (totalFrames_tight d) as (k & -> & _ & _ & ->).
  unfold passes. now rewrite Qceiling_Z.
Qed.

Lemma extractFramesWithVideo_returns (grab : nat -> num -> result string)
    (duration : num) :
  (forall i t, exists u, grab i t = Ok u) ->
  exists frames, extractFramesWithVideo grab duration = Ok frames.
Proof.
  intros Hgrab. unfold extractFramesWithVideo.
  destruct (negb _); [now exists [] |]. now apply sampleLoop_returns.
Qed.

End ScheduleDetail.

(** X13. For a finite positive duration the sampled instants depend on
    the duration alone: the video path and the FFmpeg fallback return
    the same timestamps, hence the same number of frames.  That number
    is 30 from 20 s on and 10 up to 7 s, and as long as it is below 30 it
    exceeds [1.5 * duration - 1].  These bounds do not depend on how the
    product [safeDuration * 1.5] is rounded: rounding is monotone, and
    10.5 and 30 are binary64 numbers. *)
Theorem sampled_instants_depend_on_duration_only
    (grabVideo grabFFmpeg : nat -> num -> result string)
    (loadError : option string) (d : Q) (fv ff : list FrameThumbnail) :
  0 < d ->
  FrameExtract.extractFramesWithVideo grabVideo (Fin d) = Ok fv ->
  FrameExtract.extractFramesWithFFmpeg grabFFmpeg loadError (Fin d) = Ok ff ->
  map timestamp fv = map timestamp ff
  /\ List.length fv = List.length ff
  /\ (20 <= d -> List.length fv = 30%nat)
  /\ (d <= 7 -> List.length fv = 10%nat)
  /\ ((List.length fv < 30)%nat ->
      d * 1.5 - 1 < inject_Z (Z.of_nat (List.length fv))).
Proof.
  intros Hd Hv Hf.
  assert (Hf' : FrameExtract.extractFramesWithVideo grabFFmpeg (Fin d) = Ok ff).
  { unfold FrameExtract.extractFramesWithFFmpeg in Hf.
    destruct loadError; [discriminate | exact Hf]. }
  pose proof (extract_timestamps grabVideo d fv Hd Hv) as Hmv.
  pose proof (extract_timestamps grabFFmpeg d ff Hd Hf') as Hmf.
  assert (Hsame : map timestamp fv = map timestamp ff) by congruence.
  assert (Hlen : List.length fv
                 = Z.to_nat (Z.min 30 (Z.max 10 (Qfloor (d * 1.5))))).
  { rewrite <- (length_map timestamp), Hmv, length_map, length_seq.
    reflexivity. }
  split; [exact Hsame |]. split.
  { rewrite <- (length_map timestamp fv), Hsame. apply length_map. }
  split; [| split].
  - intros H20. rewrite Hlen.
    assert (H : (30 <= Qfloor (d * 1.5))%Z).
    { rewrite <- (Qfloor_Z 30). apply Qfloor_resp_le.
      change (inject_Z 30) with 30. lra. }
    rewrite Z.min_l by lia. reflexivity.
  - intros Hsmall. rewrite Hlen.
    assert (H : (Qfloor (d * 1.5) < 11)%Z).
    { rewrite Zlt_Qlt. change (inject_Z 11) with 11.
      pose proof (Qfloor_le (d * 1.5)) as Hfl. lra. }
    rewrite Z.max_l by lia. reflexivity.
  - intros Hbelow. rewrite Hlen in Hbelow |- *.
    set (f := Qfloor (d * 1.5)) in *.
    assert (Hf30 : (f < 30)%Z) by lia.
    pose proof (Qlt_floor (d * 1.5)) as Hfl. fold f in Hfl.
    rewrite inject_Z_plus in Hfl. change (inject_Z 1) with 1 in Hfl.
    rewrite Z2Nat.id by lia.
    assert (Hk : inject_Z f <= inject_Z (Z.min 30 (Z.max 10 f))).
    { rewrite <- Zle_Qle. lia. }
    lra.
Qed.

Lemma sampled_instants_depend_on_duration_only_witness :
  let grab := fun (_ : nat) (_ : num) => Ok "blob:frame"%string in
  exists fv ff : list FrameThumbnail,
    FrameExtract.extractFramesWithVideo grab (Fin 4) = Ok fv
    /\ FrameExtract.extractFramesWithFFmpeg grab None (Fin 4) = Ok ff
    /\ map timestamp fv = map timestamp ff
    /\ List.length fv = 10%nat.
Proof.
  intros grab.
  destruct (extractFramesWithVideo_returns grab (Fin 4)
              (fun _ _ => ex_intro _ "blob:frame"%string eq_refl))
    as [fv Hv].
  exists fv, fv. split; [exact Hv |]. split; [exact Hv |].
  destruct (sampled_instants_depend_on_duration_only grab grab None 4 fv fv
              eq_refl Hv Hv) as (H1 & _ & _ & H4 & _).
  split; [exact H1 |]. apply H4. intros H. discriminate H.
Defined.

(** X14. For a duration of at least 0.1 s the cap at [duration - 0.01]
    never applies: frame [i] of [n] sits at [i * duration / n], so the
    thumbnails are evenly spaced from 0 and their timestamps strictly
    increase. *)
Theorem sampled_instants_are_evenly_spaced
    (grab : nat -> num -> result string) (d : Q)
    (frames : list FrameThumbnail) :
  0.1 <= d ->
  FrameExtract.extractFramesWithVideo grab (Fin d) = Ok frames ->
  let n := inject_Z (Z.of_nat (List.length frames)) in
  (forall (i : nat) (f : FrameThumbnail),
      nth_error frames i = Some f ->
      exists ts : Q,
        timestamp f = Fin ts /\ ts == inject_Z (Z.of_nat i) * (d / n))
  /\ (forall (i j : nat) (fi fj : FrameThumbnail),
        (i < j)%nat ->
        nth_error frames i = Some fi -> nth_error frames j = Some fj ->
        lt (timestamp fi) (timestamp fj) = true).
Proof.
  intros Hd Hv n.
  assert (Hd0 : 0 < d) by lra.
  pose proof (extract_timestamps grab d frames Hd0 Hv) as Hm.
  destruct (totalFrames_tight d) as (k & Hk & Hrange & Htight & Hkeq).
  rewrite <- Hkeq in Hm.
  assert (Hlen : List.length frames = Z.to_nat k).
  { rewrite <- (length_map timestamp), Hm, length_map, length_seq.
    reflexivity. }
  assert (Hn : n = inject_Z k).
  { unfold n. rewrite Hlen, Z2Nat.id by lia. reflexivity. }
  assert (Hat : forall i f, nth_error frames i = Some f ->
                 (Z.of_nat i < k)%Z
                 /\ timestamp f = FrameExtract.timestampAt (Fin d) i).
  { intros i f Hf.
    assert (Hi : (i < List.length frames)%nat).
    { apply nth_error_Some. congruence. }
    split; [lia |].
    pose proof (map_nth_error timestamp i frames Hf) as Hmi.
    rewrite Hm in Hmi.
    rewrite nth_error_map, nth_error_seq in Hmi.
    - destruct (i <? Z.to_nat k)%nat eqn:E; simpl in Hmi; congruence.
 }
  assert (Heven : forall i f, nth_error frames i = Some f ->
                   exists ts, timestamp f = Fin ts
                              /\ ts == inject_Z (Z.of_nat i) * (d / n)).
  { intros i f Hf. destruct (Hat i f Hf) as [Hi ->]. rewrite Hn.
    now apply timestampAt_even. }
  split; [exact Heven |].
  intros i j fi fj Hij Hfi Hfj.
  destruct (Heven i fi Hfi) as (ti & -> & Hti).
  destruct (Heven j fj Hfj) as (tj & -> & Htj).
  apply lt_Fin. rewrite Hti, Htj.
  assert (Hk0 : 0 < n) by (rewrite Hn; apply inject_Z_pos; lia).
  assert (Hstep : 0 < d / n) by (apply Qlt_shift_div_l; lra).
  assert (Hq : inject_Z (Z.of_nat i) < inject_Z (Z.of_nat j)).
  { rewrite <- Zlt_Qlt. lia. }
  nra.
Qed.

Lemma sampled_instants_are_evenly_spaced_witness :
  let grab := fun (_ : nat) (_ : num) => Ok "blob:frame"%string in
  0.1 <= 4
  /\ exists frames : list FrameThumbnail,
       FrameExtract.extractFramesWithVideo grab (Fin 4) = Ok frames
       /\ forall (i j : nat) (fi fj : FrameThumbnail),
            (i < j)%nat ->
            nth_error frames i = Some fi -> nth_error frames j = Some fj ->
            lt (timestamp fi) (timestamp fj) = true.
Proof.
  intros grab. split; [discriminate |].
  destruct (extractFramesWithVideo_returns grab (Fin 4)
              (fun _ _ => ex_intro _ "blob:frame"%string eq_refl))
    as [frames Hv].
  exists frames. split; [exact Hv |].
  exact (proj2 (sampled_instants_are_evenly_spaced grab 4 frames
                  ltac:(discriminate) Hv)).
Defined.

(** * Trim updates *)

(** X15. Delivering the same range to the session a second time changes
    nothing: the stored range, the playback position and the playing
    state are those left by the first delivery, whatever the range and
    the state, NaN bounds included. *)
Theorem trim_update_twice_is_once (range : TimeRange) (s : App.Session) :
  App.updateTrimRange range (App.updateTrimRange range s)
  = App.updateTrimRange range s.
Proof.
  destruct s as [v tr [el |]]; [| reflexivity].
  destruct el as [t paused]. destruct range as [a b].
  unfold App.updateTrimRange, App.clampToRange, neq.
  cbn [start end_ App.videoRef App.setTrimRange App.el_currentTime].
  destruct a as [qa | | |], b as [qb | | |], t as [qt | | |];
    cbn;
    repeat (match goal with
            | |- context [Qle_bool ?x ?y] =>
                let E := fresh "E" in destruct (Qle_bool x y) eqn:E
            | |- context [Qeq_bool ?x ?y] =>
                let E := fresh "E" in destruct (Qeq_bool x y) eqn:E
            end; cbn);
    try reflexivity; qprop; exfalso; lra.
Qed.

(** * The encoder's arguments *)

(** X16. Whatever two numbers [trimVideo] is called with (NaN and the
    infinities included), once the backend is loaded it either returns
    null without running the encoder, or runs it once with a finite
    start of at least 0 and a finite positive length, returning its blob
    or rethrowing its error. *)
Theorem trimVideo_runs_encoder_on_finite_interval_only
    (encode : num -> num -> result string) (t0 t1 : num) :
  Exporter.trimVideo encode None t0 t1 = Ok None
  \/ exists ss t : Q,
       0 <= ss /\ 0 < t
       /\ Exporter.trimVideo encode None t0 t1
          = match encode (Fin ss) (Fin t) with
            | Ok blob => Ok (Some blob)
            | Throw err => Throw err
            end.
Proof.
  unfold Exporter.trimVideo, bind.
  destruct t0 as [a | | |], t1 as [b | | |];
    try (left; reflexivity);
    rewrite ?max_Fin, ?min_Fin;
    repeat (cbn [JsNum.max JsNum.min le sub isFinite negb orb];
            try match goal with
                | |- context [Qle_bool ?x ?y] =>
                    let E := fresh "E" in destruct (Qle_bool x y) eqn:E
                end);
    try (left; reflexivity);
    right; eexists; eexists; (split; [| split; [| reflexivity]]);
    qprop; lra.
Qed.

(** * The backend singleton under sequential and interleaved calls *)

Section SingletonMore.

Import FFmpegService.

Lemma loadFFmpeg_keeps_memo_loaded (o : option string) (m : ModuleState) :
  (forall h, ffmpeg m = Some h -> In h (loaded m)) ->
  let m' := fst (loadFFmpeg o m) in
  (forall h, ffmpeg m' = Some h -> In h (loaded m'))
  /\ (forall h, In h (loaded m) -> In h (loaded m'))
  /\ (snd (loadFFmpeg o m) <> Ok None)
  /\ (forall h, snd (loadFFmpeg o m) = Ok (Some h) -> In h (loaded m')).
Proof.
  intros Hinv. unfold loadFFmpeg, loadFFmpeg_begin.
  destruct (ffmpeg m) as [h0 |] eqn:Hm; simpl.
  - rewrite Hm. repeat split; auto; try discriminate.
    intros h Hh. injection Hh as <-. auto.
  - destruct o as [err |]; simpl.
    + repeat split; auto; discriminate.
    + repeat split; auto; try discriminate.
      * intros h Hh. injection Hh as <-. now left.
      * intros h Hh. injection Hh as <-. now left.
Qed.

Lemma loadFFmpeg_many_safe (outcomes : list (option string)) :
  forall m : ModuleState,
    (forall h, ffmpeg m = Some h -> In h (loaded m)) ->
    let m' := fst (loadFFmpeg_many outcomes m) in
    let rs := snd (loadFFmpeg_many outcomes m) in
    (forall h, ffmpeg m' = Some h -> In h (loaded m'))
    /\ (forall h, In h (loaded m) -> In h (loaded m'))
    /\ List.length rs = List.length outcomes
    /\ ~ In (Ok None) rs
    /\ (forall h, In (Ok (Some h)) rs -> In h (loaded m')).
Proof.
  induction outcomes as [| o rest IH]; intros m Hinv; simpl.
  - repeat split; auto. intros h [].
  - destruct (loadFFmpeg o m) as [m1 r] eqn:E1.
    pose proof (loadFFmpeg_keeps_memo_loaded o m Hinv) as H1.
    rewrite E1 in H1. cbn [fst snd] in H1.
    destruct H1 as (Hinv1 & Hmono1 & Hnull1 & Hres1).
    specialize (IH m1 Hinv1).
    destruct (loadFFmpeg_many rest m1) as [m2 rs] eqn:E2.
    cbn [fst snd] in IH |- *.
    destruct IH as (Hinv2 & Hmono2 & Hlen & Hnull2 & Hres2).
    repeat split; auto.
    + simpl. congruence.
    + intros [Hr | Hr]; [congruence | contradiction].
    + intros h [Hr | Hr]; auto.
Qed.

End SingletonMore.

(** X17. In any sequence of calls to [loadFFmpeg] that each run to
    completion, starting from the empty memo, every call either throws
    or returns a handle whose initialisation has completed; none returns
    null, and there is one result per call. *)
Theorem sequential_callers_get_loaded_handles
    (outcomes : list (option string)) :
  let m' := fst (FFmpegService.loadFFmpeg_many outcomes FFmpegService.initial) in
  let rs := snd (FFmpegService.loadFFmpeg_many outcomes FFmpegService.initial) in
  List.length rs = List.length outcomes
  /\ ~ In (Ok None) rs
  /\ (forall h : nat,
        In (Ok (Some h)) rs -> In h (FFmpegService.loaded m')).
Proof.
  destruct (loadFFmpeg_many_safe outcomes FFmpegService.initial)
    as (_ & _ & H1 & H2 & H3).
  - intros h Hh. discriminate.
  - auto.
Qed.

(** X18. A call that arrives while an initialisation is pending finds
    the memo already set and is handed the pending instance at once,
    before its [load] has completed.  If that initialisation then fails,
    the memo is reset, while the early caller keeps the instance that
    never loaded. *)
Theorem call_during_pending_load_gets_unloaded_handle
    (m : FFmpegService.ModuleState) (error : string) :
  FFmpegService.ffmpeg m = None ->
  (forall h, In h (FFmpegService.loaded m) ->
             (h < FFmpegService.constructed m)%nat) ->
  let h := FFmpegService.constructed m in
  let pending := fst (FFmpegService.loadFFmpeg_begin m) in
  snd (FFmpegService.loadFFmpeg_begin m) = inr h
  /\ FFmpegService.loadFFmpeg_begin pending = (pending, inl h)
  /\ ~ In h (FFmpegService.loaded pending)
  /\ (let failed :=
        fst (FFmpegService.loadFFmpeg_settle h (Some error) pending) in
      FFmpegService.ffmpeg failed = None
      /\ ~ In h (FFmpegService.loaded failed)).
Proof.
  intros Hm Hfresh h pending.
  unfold FFmpegService.loadFFmpeg_begin in *. subst pending.
  rewrite Hm. simpl. repeat split; auto.
  - intros Hin. apply Hfresh in Hin. subst h. lia.
  - intros Hin. apply Hfresh in Hin. subst h. lia.
Qed.

Lemma call_during_pending_load_gets_unloaded_handle_witness :
  FFmpegService.ffmpeg FFmpegService.initial = None
  /\ FFmpegService.loadFFmpeg_begin
       (fst (FFmpegService.loadFFmpeg_begin FFmpegService.initial))
     = (fst (FFmpegService.loadFFmpeg_begin FFmpegService.initial),
        inl 0%nat).
Proof.
  split; [reflexivity |].
  refine (proj1 (proj2 (call_during_pending_load_gets_unloaded_handle
                          FFmpegService.initial "HTTP 404"%string
                          eq_refl _))).
  intros h Hin. destruct Hin.
Defined.
